(** * express-ts-handler: the request routine built by [makeHandler]

    A shallow embedding of the module [src/index.ts] and the properties of
    its control flow: the order of middleware, field validation,
    interception of [res.send], the handler, the implicit send, the
    restoration of [res.send] and the single call of Express's [next].
    Line numbers in the comments are those of the specification's code
    references, where [makeHandler] spans lines 348-413. *)

From stdpp Require Import gmap strings list.

Set Default Proof Using "Type".
Set Warnings "-register-all".
Open Scope Z_scope.

(** ** JavaScript values *)

(** The values that flow through the routine: request fields, payloads and
    thrown or signalled errors. *)
Inductive value : Type :=
| VUndefined
| VNull
| VBool (b : bool)
| VNum (n : Z)
| VStr (s : string)
| VObj (fields : list (string * value)).

(** JavaScript truthiness, as used by [if (err)] and [!err]. *)
Definition truthy (v : value) : bool :=
  match v with
  | VUndefined | VNull => false
  | VBool b => b
  | VNum n => negb (n =? 0)
  | VStr EmptyString => false
  | VStr _ => true
  | VObj _ => true
  end.

(** Property read [obj.key] on a value; [undefined] when absent. *)
Fixpoint assoc (key : string) (fields : list (string * value)) : value :=
  match fields with
  | [] => VUndefined
  | (k, v) :: rest => if String.eqb k key then v else assoc key rest
  end.

(** How a call ends: it returns a value or it throws one. *)
Inductive completion (A : Type) : Type :=
| Returned (a : A)
| Thrown (e : value).
Arguments Returned {A} a.
Arguments Thrown {A} e.

(** The request object: a mutable object with named properties.  One
    object is shared by every middleware and by the handler. *)
Abbreviation Request := (gmap string value).

(** Reading a property of the request ([req.query]). *)
Definition prop (key : string) (r : Request) : value :=
  default VUndefined (r !! key).

(** ** User functions

    A middleware or a handler is called as [fn(req, res, next)].  Its body
    is a program over what those three arguments let it do: read and
    assign properties of [req], read [res.headersSent], call [res.send]
    (inside a [try] when the continuation handles [Thrown]), call [next],
    and finally return or throw.  [await] is sequencing. *)
Inductive Fn : Type :=
| Return (v : value)
| Throw (e : value)
| ReadReq (k : Request -> Fn)
| AssignReq (key : string) (v : value) (k : Fn)
| ReadHeadersSent (k : bool -> Fn)
| CallNext (e : value) (k : Fn)
| CallSend (v : value) (k : completion unit -> Fn).

(** [res.send(v); rest] with no [try] around the call: a thrown value
    leaves the function. *)
Definition SendThen (v : value) (rest : Fn) : Fn :=
  CallSend v (fun c => match c with Returned _ => rest | Thrown e => Throw e end).

(** ** Observable trace *)

Inductive callee : Type :=
| Middleware (i : nat)
| TheHandler.

Inductive target : Type := Query | Params | Body | Result.

(** What an invocation does, in order.  [Invoked] records the state of the
    request object a user function is entered with; [Transmitted] is a
    call of the host framework's own send; [Signalled] a call of
    [localNext]; [Caught] the [catch] block; [Next] a call of Express's
    [next]. *)
Inductive event : Type :=
| Invoked (c : callee) (r : Request)
| ParseCalled (on : target) (input : value)
| Transmitted (id : nat) (v : value)
| Signalled (e : value)
| Caught (e : value)
| Next (e : value).

Definition is_next (ev : event) : bool :=
  match ev with Next _ => true | _ => false end.

Definition is_transmitted (ev : event) : bool :=
  match ev with Transmitted _ _ => true | _ => false end.

Definition is_signalled (ev : event) : bool :=
  match ev with Signalled _ => true | _ => false end.

Definition is_parse (ev : event) : bool :=
  match ev with ParseCalled _ _ => true | _ => false end.

Definition is_handler_call (ev : event) : bool :=
  match ev with Invoked TheHandler _ => true | _ => false end.

(** The writes to the [err] variable: [localNext] and the [catch] block. *)
Definition err_write (ev : event) : option value :=
  match ev with
  | Signalled e | Caught e => Some e
  | _ => None
  end.

(** The value last written to [err] along a trace, [d] when none was. *)
Definition last_err (d : value) (evs : list event) : value :=
  fold_left (fun acc ev => default acc (err_write ev)) evs d.

Section MakeHandler.

(** The schema type [T extends BaseType]: opaque to the routine. *)
Context {T : Type}.

(** [type Options<T>]. *)
Record Options : Type := {
  parse : T -> value -> completion value;
  object : list (string * T) -> T;
  checkResult : option bool;
}.

(** A configured validation, by the outcome of the test
    [obj?.constructor === Object] that [objectToType] makes on it:
    [Props] is a value on which the test holds (a plain object of
    schemas), [Schema] one on which it fails. *)
Inductive Validation : Type :=
| Schema (t : T)
| Props (props : list (string * T)).

(** [objectToType]: a plain object ([obj?.constructor === Object]) goes
    through [object], anything else is returned as it is. *)
Definition objectToType (object : list (string * T) -> T) (obj : Validation) : T :=
  match obj with
  | Props props => object props
  | Schema t => t
  end.

(** [use?: M | [...U]]. *)
Inductive Use : Type :=
| Single (fn : Fn)
| Array (fns : list Fn).

(** [if (use && !Array.isArray(use)) use = [use]]. *)
Definition toArray (use : Use) : list Fn :=
  match use with
  | Single fn => [fn]
  | Array fns => fns
  end.

(** The argument of [Handler<T>]. *)
Record Route : Type := {
  use : option Use;
  query : option Validation;
  params : option Validation;
  body : option Validation;
  result : option Validation;
  handler : Fn;
}.

(** The function stored in [res.send]: the host framework's own (named by
    [id]), or the arrow function of lines 387-391, a closure over [send]
    and [result] (and over the invocation's variable [originalSend], which
    lives in the state below). *)
Inductive Send : Type :=
| hostSend (id : nat)
| checkedSend (send : Send) (result : T).

(** The response: the [send] property and [headersSent]. *)
Record Response : Type := {
  send : Send;
  headersSent : bool;
}.

(** The state of one invocation: the two objects it is given, its two
    local variables [err] and [originalSend], and the trace so far. *)
Record state : Type := {
  req : Request;
  res : Response;
  err : value;
  originalSend : option Send;
  events : list event;
}.

Definition set_req (r : Request) (st : state) : state :=
  {| req := r; res := res st; err := err st;
     originalSend := originalSend st; events := events st |}.

Definition set_send (f : Send) (st : state) : state :=
  {| req := req st;
     res := {| send := f; headersSent := headersSent (res st) |};
     err := err st; originalSend := originalSend st; events := events st |}.

Definition set_headersSent (b : bool) (st : state) : state :=
  {| req := req st;
     res := {| send := send (res st); headersSent := b |};
     err := err st; originalSend := originalSend st; events := events st |}.

Definition set_err (e : value) (st : state) : state :=
  {| req := req st; res := res st; err := e;
     originalSend := originalSend st; events := events st |}.

Definition set_originalSend (o : option Send) (st : state) : state :=
  {| req := req st; res := res st; err := err st;
     originalSend := o; events := events st |}.

Definition emit (ev : event) (st : state) : state :=
  {| req := req st; res := res st; err := err st;
     originalSend := originalSend st; events := events st ++ [ev] |}.

(** The locals as the routine declares them: [let err; let originalSend]. *)
Definition enter (r : Request) (rs : Response) : state :=
  {| req := r; res := rs; err := VUndefined; originalSend := None; events := [] |}.

(** Computations of the routine: state passing with exceptions. *)
Definition M (A : Type) : Type := state -> state * completion A.

Definition ret {A} (a : A) : M A := fun st => (st, Returned a).

Definition throw {A} (e : value) : M A := fun st => (st, Thrown e).

Definition bind {A B} (f : A -> M B) (m : M A) : M B :=
  fun st =>
    match m st with
    | (st', Returned a) => f a st'
    | (st', Thrown e) => (st', Thrown e)
    end.

#[local] Instance M_ret : MRet M := @ret.
#[local] Instance M_bind : MBind M := @bind.

Definition modify (f : state -> state) : M unit := fun st => (f st, Returned tt).

Definition get {A} (f : state -> A) : M A := fun st => (st, Returned (f st)).

Definition lift {A} (c : completion A) : M A := fun st => (st, c).

Variable opts : Options.

(** The host framework's send, as the test suite's mock has it: the
    payload goes out and [headersSent] becomes true. *)
Definition transmit (id : nat) (v : value) : M unit :=
  modify (fun st => set_headersSent true (emit (Transmitted id v) st)).

(** [parse(schema, value)], recorded in the trace. *)
Definition callParse (on : target) (t : T) (v : value) : M value :=
  modify (emit (ParseCalled on v)) ;;
  lift (parse opts t v).

(** Calling a function that was stored in [res.send].  For the arrow
    function of lines 387-391:
    [originalSend = undefined; res.send = send;
     return send.call(res, parse(result, value))]. *)
Fixpoint applySend (f : Send) (v : value) : M unit :=
  match f with
  | hostSend id => transmit id v
  | checkedSend send result =>
      modify (set_originalSend None) ;;
      modify (set_send send) ;;
      v' ← callParse Result result v;
      applySend send v'
  end.

(** [res.send(v)]: whatever the property holds at the time of the call. *)
Definition resSend (v : value) : M unit :=
  fun st => applySend (send (res st)) v st.

(** [const localNext = (error) => { err = error }]. *)
Definition localNext (error : value) : M unit :=
  modify (fun st => set_err error (emit (Signalled error) st)).

(** Running the body of a user function. *)
Fixpoint exec (fn : Fn) : M value :=
  match fn with
  | Return v => ret v
  | Throw e => throw e
  | ReadReq k => fun st => exec (k (req st)) st
  | AssignReq key v k => modify (fun st => set_req (<[key := v]> (req st)) st) ;; exec k
  | ReadHeadersSent k => fun st => exec (k (headersSent (res st))) st
  | CallNext e k => localNext e ;; exec k
  | CallSend v k => fun st =>
      let '(st', c) := resSend v st in exec (k c) st'
  end.

(** A call [fn(req, res, localNext)], recorded with the request it sees. *)
Definition call (c : callee) (fn : Fn) : M value :=
  modify (fun st => emit (Invoked c (req st)) st) ;;
  exec fn.

(** Express's [next(err)]. *)
Definition next (e : value) : M unit := modify (emit (Next e)).

(** Lines 370-378, the loop over [use].  The result tells whether the loop
    left the routine through [next(err); return]. *)
Fixpoint middlewares (i : nat) (fns : list Fn) : M bool :=
  match fns with
  | [] => ret false
  | fn :: rest =>
      call (Middleware i) fn ;;
      e ← get err;
      if truthy e then (next e ;; ret true)
      else middlewares (S i) rest
  end.

(** Lines 380-382: [if (query) req.query = parse(query, req.query)]. *)
Definition validate (on : target) (key : string) (schema : option T) : M unit :=
  match schema with
  | None => ret tt
  | Some t =>
      r ← get req;
      v ← callParse on t (prop key r);
      modify (fun st => set_req (<[key := v]> (req st)) st)
  end.

(** Lines 384-392: the interception of [res.send]. *)
Definition intercept (result : option T) (checkResult : bool) : M unit :=
  match result with
  | Some t =>
      if checkResult then
        send ← get (fun st => send (res st));
        modify (set_originalSend (Some send)) ;;
        modify (set_send (checkedSend send t))
      else ret tt
  | None => ret tt
  end.

(** Lines 394-401: the handler and the send of what it returns. *)
Definition handle (handler : Fn) : M unit :=
  output ← call TheHandler handler;
  sent ← get (fun st => headersSent (res st));
  e ← get err;
  if negb sent && negb (truthy e) then resSend output else ret tt.

(** [if (use) { for (const fn of use) ... }]. *)
Definition runUse (use : option (list Fn)) : M bool :=
  match use with
  | Some fns => middlewares 0 fns
  | None => ret false
  end.

(** Lines 380-382, the three field validations in the order of the code. *)
Definition validation (query params body : option T) : M unit :=
  validate Query "query" query ;;
  validate Params "params" params ;;
  validate Body "body" body.

(** Lines 370-392: everything the [try] block does before the handler. *)
Definition prologue (use : option (list Fn)) (query params body result : option T)
    (checkResult : bool) : M bool :=
  returned ← runUse use;
  if returned : bool then ret true
  else
    validation query params body ;;
    intercept result checkResult ;;
    ret false.

(** The [try] block, lines 370-401. *)
Definition tryBlock (use : option (list Fn)) (query params body result : option T)
    (checkResult : bool) (handler : Fn) : M bool :=
  returned ← prologue use query params body result checkResult;
  if returned : bool then ret true
  else
    handle handler ;;
    ret false.

(** Lines 406-410: [if (originalSend) res.send = originalSend; next(err)]. *)
Definition finish (st : state) : state :=
  let st1 := match originalSend st with
             | Some f => set_send f st
             | None => st
             end in
  emit (Next (err st1)) st1.

(** [catch (e) { err = e }]. *)
Definition catch (e : value) (st : state) : state :=
  set_err e (emit (Caught e) st).

(** What follows the [try] block: nothing after [return], the [catch]
    block after a throw, and lines 406-410 in both remaining cases. *)
Definition conclude (out : state * completion bool) : state :=
  match out with
  | (st, Returned true) => st
  | (st, Returned false) => finish st
  | (st, Thrown e) => finish (catch e st)
  end.

(** The request handler, lines 361-411. *)
Definition requestHandler (use : option (list Fn)) (query params body result : option T)
    (checkResult : bool) (handler : Fn) (r : Request) (rs : Response) : state :=
  conclude (tryBlock use query params body result checkResult handler (enter r rs)).

(** [checkResult = process.env.NODE_ENV !== 'production'], the default of
    the destructured option. *)
Definition defaultCheckResult (NODE_ENV : option string) : bool :=
  match NODE_ENV with
  | Some s => negb (String.eqb s "production")
  | None => true
  end.

Definition effectiveCheckResult (NODE_ENV : option string) : bool :=
  default (defaultCheckResult NODE_ENV) (checkResult opts).

(** [makeHandler(opts)(route)], lines 348-413, with the environment
    variable it reads. *)
Definition makeHandler (NODE_ENV : option string) (route : Route)
    : Request -> Response -> state :=
  let query := objectToType (object opts) <$> query route in
  let params := objectToType (object opts) <$> params route in
  let body := objectToType (object opts) <$> body route in
  let result := objectToType (object opts) <$> result route in
  let use := toArray <$> use route in
  requestHandler use query params body result
    (effectiveCheckResult NODE_ENV) (handler route).

End MakeHandler.

Arguments Options : clear implicits.
Arguments Validation : clear implicits.
Arguments Route : clear implicits.
Arguments Send : clear implicits.
Arguments Response : clear implicits.
Arguments state : clear implicits.

(** ** Notions used by the statements *)

(** The events a user function can cause by itself: calls of [localNext],
    host transmits, and the [parse] of an intercepted send. *)
Definition user_event (ev : event) : bool :=
  match ev with
  | Signalled _ | Transmitted _ _ | ParseCalled Result _ => true
  | _ => false
  end.

(** Everything but a call of Express's [next]. *)
Definition not_next (ev : event) : bool := negb (is_next ev).

(** Work that comes after middleware number [k]: a later middleware, a
    field validation, the handler. *)
Definition later_work (k : nat) (ev : event) : bool :=
  match ev with
  | Invoked (Middleware j) _ => Nat.ltb k j
  | Invoked TheHandler _ => true
  | ParseCalled Result _ => false
  | ParseCalled _ _ => true
  | _ => false
  end.

(** The events a chain of middleware numbered from [lo] up to [hi]
    (excluded) can cause before it ends. *)
Definition chain_event (lo hi : nat) (ev : event) : bool :=
  user_event ev ||
  match ev with
  | Invoked (Middleware j) _ => Nat.leb lo j && Nat.ltb j hi
  | _ => false
  end.

(** The events that can come before the handler is entered, short of a
    call of Express's [next]. *)
Definition before_handler (ev : event) : bool :=
  negb (is_next ev) && negb (is_handler_call ev).

(** The events of the handler phase. *)
Definition handler_event (ev : event) : bool :=
  user_event ev || is_handler_call ev.

(** The values written to [err] along a trace, in order. *)
Definition writes (evs : list event) : list value := omap err_write evs.

(** The arguments Express's [next] was called with, in order. *)
Definition forwarded (evs : list event) : list value :=
  omap (fun ev => match ev with Next e => Some e | _ => None end) evs.

(** The request the handler was entered with, if it was entered. *)
Definition handler_request (evs : list event) : option Request :=
  head (omap (fun ev => match ev with Invoked TheHandler r => Some r | _ => None end) evs).

(** [p] followed by [k] applied to what [p] returns. *)
Fixpoint seq (p : Fn) (k : value -> Fn) : Fn :=
  match p with
  | Return v => k v
  | Throw e => Throw e
  | ReadReq f => ReadReq (fun r => seq (f r) k)
  | AssignReq key v p' => AssignReq key v (seq p' k)
  | ReadHeadersSent f => ReadHeadersSent (fun b => seq (f b) k)
  | CallNext e p' => CallNext e (seq p' k)
  | CallSend v f => CallSend v (fun c => seq (f c) k)
  end.

(** The same function with every returned value replaced through [g]. *)
Definition withReturn (g : value -> value) (p : Fn) : Fn :=
  seq p (fun v => Return (g v)).

Section Notions.

Context {T : Type}.
Variable opts : Options T.

(** [st'] is reached from [st] by appending events that all satisfy [P],
    with [err] holding the last value those events wrote. *)
Definition steps (P : event -> bool) (st st' : state T) : Prop :=
  exists evs,
    events st' = events st ++ evs /\
    forallb P evs = true /\
    err st' = last_err (err st) evs /\
    headersSent (res st') = headersSent (res st) || existsb is_transmitted evs.

(** The two shapes of [res.send] and [originalSend] during an invocation
    on a response whose own send is [hostSend id]: not intercepted, or
    intercepted with [originalSend] remembering the host's send. *)
Inductive slot (id : nat) (st : state T) : Prop :=
| slot_plain :
    send (res st) = hostSend id -> originalSend st = None -> slot id st
| slot_intercepted (t : T) :
    send (res st) = checkedSend (hostSend id) t ->
    originalSend st = Some (hostSend id) -> slot id st.

(** A middleware call that fails with [f]: it throws [f], or it returns
    with [err] holding the truthy [f]. *)
Definition fails_with (f : value) (out : state T * completion value) : Prop :=
  match out.2 with
  | Thrown e => e = f
  | Returned _ => truthy (err out.1) = true /\ err out.1 = f
  end.

(** The state after calling the steps one after the other on the shared
    request, whatever they return. *)
Fixpoint chain (i : nat) (fns : list Fn) (st : state T) : state T :=
  match fns with
  | [] => st
  | fn :: rest => chain (S i) rest (call opts (Middleware i) fn st).1
  end.

(** No step of the chain fails: each returns, and leaves [err] falsy. *)
Fixpoint no_failures (i : nat) (fns : list Fn) (st : state T) : Prop :=
  match fns with
  | [] => True
  | fn :: rest =>
      let out := call opts (Middleware i) fn st in
      (exists v, out.2 = Returned v) /\
      truthy (err out.1) = false /\
      no_failures (S i) rest out.1
  end.

(** The route with its [use] replaced. *)
Definition withUse (u : option (@Use)) (route : Route T) : Route T :=
  {| use := u; query := query route; params := params route; body := body route;
     result := result route; handler := handler route |}.

(** Field validation as the specification words it: the configured fields
    among query, params, body, taken in that order; each is parsed and
    replaced; the first failure halts with the thrown error. *)
Fixpoint validate_fields (fields : list (target * string * option T))
    (st : state T) : state T * completion unit :=
  match fields with
  | [] => (st, Returned tt)
  | (_, _, None) :: rest => validate_fields rest st
  | (on, key, Some t) :: rest =>
      let st1 := emit (ParseCalled on (prop key (req st))) st in
      match parse opts t (prop key (req st)) with
      | Thrown e => (st1, Thrown e)
      | Returned v => validate_fields rest (set_req (<[key := v]> (req st1)) st1)
      end
  end.

End Notions.

(** ** The collaborators of the test suite

    [src/index.test.ts] drives the routine with a mock [parse] and a mock
    [object]; they serve here as the concrete collaborators. *)
Module Mock.

(** [new Type(...)] and what [object: (obj) => ({ obj })] builds. *)
Inductive schema : Type :=
| type
| obj (props : list (string * schema)).

(** [const error = new Error('Invalid value')]. *)
Definition error : value := VObj [("message", VStr "Invalid value")].

(** The mock [parse]: an object whose [key] is a string parses to
    ['parsed'], anything else throws [error]. *)
Definition mock_parse (_ : schema) (v : value) : completion value :=
  match v with
  | VObj fields =>
      match assoc "key" fields with
      | VStr _ => Returned (VStr "parsed")
      | _ => Thrown error
      end
  | _ => Thrown error
  end.

(** [makeHandler({ parse, object: (obj) => ({ obj }) })]. *)
Definition options (checkResult : option bool) : Options schema :=
  {| parse := mock_parse; object := obj; checkResult := checkResult |}.

(** [const value = { key: 'value' }]. *)
Definition value' : value := VObj [("key", VStr "value")].

(** [{ invalid: true }]. *)
Definition invalid : value := VObj [("invalid", VBool true)].

(** The request of [beforeEach]. *)
Definition req : Request :=
  {[ "query" := value'; "params" := value'; "body" := value' ]}.

(** The response of the suite: its own [send], nothing sent yet. *)
Definition res : Response schema := {| send := hostSend 0; headersSent := false |}.

(** A route with only a handler. *)
Definition route (handler : Fn) : Route schema :=
  {| use := None; query := None; params := None; body := None;
     result := None; handler := handler |}.

(** A route with a result schema and a handler, as in the tests of
    [res.send] and of returned data. *)
Definition checked (handler : Fn) : Route schema :=
  {| use := None; query := None; params := None; body := None;
     result := Some (Schema type); handler := handler |}.

(** A route with middleware and a handler. *)
Definition withMiddleware (fns : list Fn) (handler : Fn) : Route schema :=
  {| use := Some (Array fns); query := None; params := None; body := None;
     result := None; handler := handler |}.

(** A route that validates the three fields. *)
Definition validating (handler : Fn) : Route schema :=
  {| use := None; query := Some (Schema type); params := Some (Schema type);
     body := Some (Schema type); result := None; handler := handler |}.

(** The options of the suite: [checkResult] is left to its default. *)
Definition opts : Options schema := options None.

(** One invocation [handler(route)(req, res, next)], outside production. *)
Definition run (route : Route schema) : state schema :=
  makeHandler opts None route req res.

End Mock.

(** ** Further notions: the order of the phases, counting *)

(** A [parse] of one of the request fields. *)
Definition is_field_parse (ev : event) : bool :=
  match ev with
  | ParseCalled Result _ => false
  | ParseCalled _ _ => true
  | _ => false
  end.

(** The events from the entry of the handler on. *)
Definition late_event (ev : event) : bool :=
  handler_event ev ||
  match ev with Caught _ | Next _ => true | _ => false end.

(** The numbers of the middlewares entered, in the order of entry. *)
Definition middleware_calls (evs : list event) : list nat :=
  omap (fun ev => match ev with Invoked (Middleware j) _ => Some j | _ => None end) evs.

(** How many payloads the host's send transmitted. *)
Definition transmits (evs : list event) : nat :=
  length (List.filter is_transmitted evs).

(** A user function that never calls [res.send]. *)
Inductive never_sends : Fn -> Prop :=
| ns_return v : never_sends (Return v)
| ns_throw e : never_sends (Throw e)
| ns_read k : (forall r, never_sends (k r)) -> never_sends (ReadReq k)
| ns_assign key v k : never_sends k -> never_sends (AssignReq key v k)
| ns_sent k : (forall b, never_sends (k b)) -> never_sends (ReadHeadersSent k)
| ns_next e k : never_sends k -> never_sends (CallNext e k).

Section MoreNotions.

Context {T : Type}.
Variable opts : Options T.

(** The prologue of a route, with the route's normalised parts. *)
Definition routePrologue (NODE_ENV : option string) (route : Route T)
    : state T -> state T * completion bool :=
  prologue opts (toArray <$> use route)
    (objectToType (object opts) <$> query route)
    (objectToType (object opts) <$> params route)
    (objectToType (object opts) <$> body route)
    (objectToType (object opts) <$> result route)
    (effectiveCheckResult opts NODE_ENV).

(** The field validation of a route. *)
Definition routeValidation (route : Route T) : state T -> state T * completion unit :=
  validation opts
    (objectToType (object opts) <$> query route)
    (objectToType (object opts) <$> params route)
    (objectToType (object opts) <$> body route).

(** A middleware call that fails with [f], read off what the call did:
    it throws [f], or it returns and the last value it passed to
    [localNext] is the truthy [f]. *)
Definition step_fails (f : value) (st : state T)
    (out : state T * completion value) : Prop :=
  match out.2 with
  | Thrown e => e = f
  | Returned _ =>
      exists evs,
        events out.1 = events st ++ evs /\
        last (writes evs) = Some f /\
        truthy f = true
  end.

End MoreNotions.

(** ** The example application: the item repository

    [example/src/item.repo.ts].  The module-level array [items] is the
    state; each function takes it and, when it changes it, returns the
    new one. *)
Module ItemRepo.

(** [type Item = z.infer<typeof ItemType>]. *)
Record Item : Type := {
  id : Z;
  name : string;
  userId : Z;
}.

(** [Omit<Item, 'id'>]. *)
Record ItemData : Type := {
  data_name : string;
  data_userId : Z;
}.

(** [items.find((it) => it.id === id)]; [None] is [undefined]. *)
Definition findItemById (id' : Z) (items : list Item) : option Item :=
  List.find (fun it => id it =? id') items.

(** [items.filter((it) => it.name === name)]. *)
Definition searchItemsByName (name' : string) (items : list Item) : list Item :=
  List.filter (fun it => String.eqb (name it) name') items.

(** [const item = { ...data, id: items.length + 1 }; items.push(item);
    return item]: the new array and the item returned. *)
Definition createItem (data : ItemData) (items : list Item) : list Item * Item :=
  let item := {| name := data_name data; userId := data_userId data;
                 id := Z.of_nat (length items) + 1 |} in
  (items ++ [item], item).

(** The arrays the module can hold: [items] starts empty and only
    [createItem] changes it. *)
Inductive reachable : list Item -> Prop :=
| reach_empty : reachable []
| reach_create data items : reachable items -> reachable (createItem data items).1.

(** An item as the JavaScript object it is. *)
Definition toValue (it : Item) : value :=
  VObj [("name", VStr (name it)); ("userId", VNum (userId it)); ("id", VNum (id it))].

End ItemRepo.

(** ** The example application: the server

    [example/src/server.ts]: the authorization middleware and the handler
    of [GET /items/:id].  Express's [req.header] is a parameter. *)
Module Server.

(** [new AppError(message, status = 422)]. *)
Definition AppError (message : string) (status : option Z) : value :=
  VObj [("message", VStr message); ("status", VNum (default 422 status))].

(** [req.header('Authorization') !== 'secret']. *)
Definition not_secret (h : value) : bool :=
  match h with
  | VStr s => negb (String.eqb s "secret")
  | _ => true
  end.

(** Lines 20-26:
    [if (req.header('Authorization') !== 'secret') throw new AppError('Unauthorized');
     return Object.assign(req, { user: { id: 1 } })]. *)
Definition authMiddleware (header : Request -> string -> value) : Fn :=
  ReadReq (fun r =>
    if not_secret (header r "Authorization")
    then Throw (AppError "Unauthorized" None)
    else AssignReq "user" (VObj [("id", VNum 1)])
           (ReadReq (fun r' => Return (VObj (map_to_list r'))))).

(** [findItemById(id)] on the value found in [req.params.id]: only a
    number can be [===] to an item's [id]. *)
Definition findByValue (id' : value) (items : list ItemRepo.Item) : option ItemRepo.Item :=
  match id' with
  | VNum n => ItemRepo.findItemById n items
  | _ => None
  end.

(** A property [v.key] of a value that is neither [undefined] nor [null]:
    the member of an object, [undefined] on a primitive. *)
Definition member (key : string) (v : value) : value :=
  match v with
  | VObj fields => assoc key fields
  | _ => VUndefined
  end.

(** The [TypeError] of destructuring [undefined] or [null]. *)
Definition TypeError : value := VObj [("name", VStr "TypeError")].

(** Lines 50-60, the handler of [GET /items/:id], on the array the
    repository holds when it is called:
    [const { id } = req.params; const item = await findItemById(id);
     if (!item) throw new AppError('Not found'); return item]. *)
Definition getItem (items : list ItemRepo.Item) : Fn :=
  ReadReq (fun r =>
    match prop "params" r with
    | VUndefined | VNull => Throw TypeError
    | params =>
        match findByValue (member "id" params) items with
        | None => Throw (AppError "Not found" None)
        | Some item => Return (ItemRepo.toValue item)
        end
    end).

End Server.

(** ** Proof steps *)

(** Unfolds the sequencing of the routine's computations. *)
Ltac munfold :=
  cbv [mbind M_bind bind mret M_ret ret throw modify get lift] in *.

(** Closes a goal about a concrete invocation by running it. *)
Ltac evaluate := vm_compute; reflexivity.

(** * Properties of the routine *)

Section Properties.

Context {T : Type}.
Variable opts : Options T.

Implicit Types (st : state T) (fn : Fn) (v e : value) (evs : list event).

(** ** Traces *)

Lemma last_err_app d evs1 evs2 :
  last_err d (evs1 ++ evs2) = last_err (last_err d evs1) evs2.
Proof. apply fold_left_app. Qed.

Lemma steps_refl P st : steps P st st.
Proof.
  exists []. rewrite app_nil_r. simpl. rewrite orb_false_r. done.
Qed.

Lemma steps_trans P st1 st2 st3 :
  steps P st1 st2 -> steps P st2 st3 -> steps P st1 st3.
Proof.
  intros (evs1 & E1 & F1 & R1 & H1) (evs2 & E2 & F2 & R2 & H2).
  exists (evs1 ++ evs2). repeat split.
  - rewrite E2, E1, app_assoc. done.
  - rewrite forallb_app, F1, F2. done.
  - rewrite last_err_app, <- R1. done.
  - rewrite H2, H1, existsb_app, orb_assoc. done.
Qed.

Lemma steps_weaken (P Q : event -> bool) st st' :
  (forall ev, P ev = true -> Q ev = true) -> steps P st st' -> steps Q st st'.
Proof.
  intros PQ (evs & E & F & R & H). exists evs. repeat split; try done.
  rewrite forallb_forall in *. auto.
Qed.

Lemma steps_emit P ev st :
  P ev = true -> err_write ev = None -> is_transmitted ev = false ->
  steps P st (emit ev st).
Proof.
  intros HP HW HT. exists [ev]. simpl. rewrite HP, HW, HT, orb_false_r. done.
Qed.

Lemma steps_localNext P e st :
  P (Signalled e) = true -> steps P st (set_err e (emit (Signalled e) st)).
Proof.
  intros HP. exists [Signalled e]. simpl. rewrite HP, orb_false_r. done.
Qed.

Lemma steps_catch P e st :
  P (Caught e) = true -> steps P st (catch e st).
Proof.
  intros HP. exists [Caught e]. simpl. rewrite HP, orb_false_r. done.
Qed.

Lemma steps_transmit P id v st :
  P (Transmitted id v) = true ->
  steps P st (set_headersSent true (emit (Transmitted id v) st)).
Proof.
  intros HP. exists [Transmitted id v]. simpl. rewrite HP, orb_true_r. done.
Qed.

Lemma steps_set_req P r st : steps P st (set_req r st).
Proof. exists []. simpl. rewrite app_nil_r, orb_false_r. done. Qed.

Lemma steps_set_send P f st : steps P st (set_send f st).
Proof. exists []. simpl. rewrite app_nil_r, orb_false_r. done. Qed.

Lemma steps_set_originalSend P o st : steps P st (set_originalSend o st).
Proof. exists []. simpl. rewrite app_nil_r, orb_false_r. done. Qed.

(** A call of a function stored in [res.send] only parses and transmits;
    it touches neither the request nor [err]. *)
Lemma applySend_steps f v st st' (c : completion unit) :
  applySend opts f v st = (st', c) ->
  steps user_event st st' /\ req st' = req st.
Proof.
  revert v st. induction f as [id | f IH t]; intros v st; simpl.
  - unfold transmit. munfold. intros [= <- <-]. split; [|done].
    apply steps_transmit. done.
  - unfold callParse. munfold. simpl.
    destruct (parse opts t v) as [v' | e'].
    + intros H. apply IH in H as [H1 H2]. split; [|done].
      eapply steps_trans; [|exact H1].
      eapply steps_trans; [apply (steps_set_originalSend _ None)|].
      eapply steps_trans; [apply (steps_set_send _ f)|].
      apply steps_emit; done.
    + intros [= <- <-]. split; [|done].
      eapply steps_trans; [apply (steps_set_originalSend _ None)|].
      eapply steps_trans; [apply (steps_set_send _ f)|].
      apply steps_emit; done.
Qed.

(** A user function only signals, transmits and (through an intercepted
    send) parses. *)
Lemma exec_steps fn st st' (c : completion value) :
  exec opts fn st = (st', c) -> steps user_event st st'.
Proof.
  revert st. induction fn as [v | e | k IH | key v k IH | k IH | e k IH | v k IH];
    intros st; simpl.
  - munfold. intros [= <- <-]. apply steps_refl.
  - munfold. intros [= <- <-]. apply steps_refl.
  - apply IH.
  - munfold. intros H. apply IH in H.
    eapply steps_trans; [apply steps_set_req | exact H].
  - apply IH.
  - unfold localNext. munfold. intros H. apply IH in H.
    eapply steps_trans; [apply steps_localNext | exact H]. done.
  - unfold resSend. destruct (applySend opts (send (res st)) v st) as [st1 c1] eqn:E.
    intros H. apply IH in H. apply applySend_steps in E as [E _].
    eapply steps_trans; eassumption.
Qed.

(** ** The [send] property *)

Lemma resSend_plain id v st :
  send (res st) = hostSend id ->
  resSend opts v st = (set_headersSent true (emit (Transmitted id v) st), Returned tt).
Proof. unfold resSend. intros ->. reflexivity. Qed.

Lemma resSend_intercepted id t v st :
  send (res st) = checkedSend (hostSend id) t ->
  resSend opts v st =
    let st1 := emit (ParseCalled Result v)
                 (set_send (hostSend id) (set_originalSend None st)) in
    match parse opts t v with
    | Returned v' => (set_headersSent true (emit (Transmitted id v') st1), Returned tt)
    | Thrown e => (st1, Thrown e)
    end.
Proof.
  unfold resSend. intros ->. simpl. unfold callParse, transmit. munfold. simpl.
  destruct (parse opts t v); reflexivity.
Qed.

Lemma resSend_slot id v st st' (c : completion unit) :
  resSend opts v st = (st', c) -> slot id st -> slot id st'.
Proof.
  intros H [Hs Ho | t Hs Ho].
  - rewrite (resSend_plain id) in H by done. injection H as <- <-.
    apply slot_plain; done.
  - rewrite (resSend_intercepted id t) in H by done. simpl in H.
    destruct (parse opts t v); injection H as <- <-; apply slot_plain; done.
Qed.

Lemma resSend_stays_plain id v st st' (c : completion unit) :
  resSend opts v st = (st', c) -> send (res st) = hostSend id ->
  send (res st') = hostSend id /\ originalSend st' = originalSend st.
Proof.
  intros H Hs. rewrite (resSend_plain id) in H by done. injection H as <- <-. done.
Qed.

Lemma exec_slot id fn st st' (c : completion value) :
  exec opts fn st = (st', c) -> slot id st -> slot id st'.
Proof.
  revert st. induction fn as [v | e | k IH | key v k IH | k IH | e k IH | v k IH];
    intros st; simpl.
  - munfold. intros [= <- <-]. done.
  - munfold. intros [= <- <-]. done.
  - apply IH.
  - munfold. intros H Hs. apply IH in H; [done|].
    destruct Hs as [? ? | t ? ?]; [apply slot_plain | apply (slot_intercepted _ _ t)]; done.
  - apply IH.
  - unfold localNext. munfold. intros H Hs. apply IH in H; [done|].
    destruct Hs as [? ? | t ? ?]; [apply slot_plain | apply (slot_intercepted _ _ t)]; done.
  - destruct (resSend opts v st) as [st1 c1] eqn:E. intros H Hs.
    apply IH in H; [done|]. eapply resSend_slot; eassumption.
Qed.

Lemma exec_stays_plain id fn st st' (c : completion value) :
  exec opts fn st = (st', c) -> send (res st) = hostSend id ->
  send (res st') = hostSend id /\ originalSend st' = originalSend st.
Proof.
  revert st. induction fn as [v | e | k IH | key v k IH | k IH | e k IH | v k IH];
    intros st; simpl.
  - munfold. intros [= <- <-]. done.
  - munfold. intros [= <- <-]. done.
  - apply IH.
  - munfold. intros H Hs. apply IH in H; done.
  - apply IH.
  - unfold localNext. munfold. intros H Hs. apply IH in H; done.
  - destruct (resSend opts v st) as [st1 c1] eqn:E. intros H Hs.
    eapply resSend_stays_plain in E as [E1 E2]; [|done].
    apply IH in H as [H1 H2]; [|done]. split; congruence.
Qed.

Lemma finish_slot id st : slot id st -> send (res (finish st)) = hostSend id.
Proof. intros [Hs Ho | t Hs Ho]; unfold finish; rewrite Ho; done. Qed.

Lemma catch_slot id e st : slot id st -> slot id (catch e st).
Proof.
  intros [? ? | t ? ?]; [apply slot_plain | apply (slot_intercepted _ _ t)]; done.
Qed.

(** ** Calls of user functions *)

Lemma call_eq c fn st :
  call opts c fn st = exec opts fn (emit (Invoked c (req st)) st).
Proof. reflexivity. Qed.

Lemma call_steps P c fn st st' (out : completion value) :
  (forall ev, user_event ev = true -> P ev = true) ->
  (forall r, P (Invoked c r) = true) ->
  call opts c fn st = (st', out) -> steps P st st'.
Proof.
  intros HU HC. rewrite call_eq. intros H. apply exec_steps in H.
  eapply steps_trans; [apply steps_emit; auto|].
  eapply steps_weaken; eassumption.
Qed.

Lemma call_slot id c fn st st' (out : completion value) :
  call opts c fn st = (st', out) -> slot id st -> slot id st'.
Proof.
  rewrite call_eq. intros H Hs. eapply exec_slot; [exact H|].
  destruct Hs as [? ? | t ? ?]; [apply slot_plain | apply (slot_intercepted _ _ t)]; done.
Qed.

Lemma call_stays_plain id c fn st st' (out : completion value) :
  call opts c fn st = (st', out) -> send (res st) = hostSend id ->
  send (res st') = hostSend id /\ originalSend st' = originalSend st.
Proof. rewrite call_eq. intros H Hs. eapply exec_stays_plain in H; done. Qed.

(** ** The loop over [use] *)

Lemma middlewares_unfold i fn rest st :
  middlewares opts i (fn :: rest) st =
    match call opts (Middleware i) fn st with
    | (st1, Returned _) =>
        if truthy (err st1) then (emit (Next (err st1)) st1, Returned true)
        else middlewares opts (S i) rest st1
    | (st1, Thrown e) => (st1, Thrown e)
    end.
Proof.
  cbn [middlewares]. unfold next. munfold.
  destruct (call opts (Middleware i) fn st) as [st1 [v | e]]; [|reflexivity].
  destruct (truthy (err st1)); reflexivity.
Qed.

Lemma chain_event_mono lo hi lo' hi' ev :
  (lo' <= lo)%nat -> (hi <= hi')%nat ->
  chain_event lo hi ev = true -> chain_event lo' hi' ev = true.
Proof.
  unfold chain_event. intros Hlo Hhi.
  destruct (user_event ev); [done|]. simpl.
  destruct ev as [[j |] r | | | | |]; try done.
  rewrite !andb_true_iff, !Nat.leb_le, !Nat.ltb_lt. lia.
Qed.

Lemma chain_event_call i n r :
  chain_event i (i + S n) (Invoked (Middleware i) r) = true.
Proof.
  unfold chain_event. simpl. rewrite andb_true_iff, Nat.leb_le, Nat.ltb_lt. lia.
Qed.

Lemma chain_event_user lo hi ev : user_event ev = true -> chain_event lo hi ev = true.
Proof. unfold chain_event. intros ->. done. Qed.

Lemma middlewares_spec i fns st st' (out : completion bool) :
  middlewares opts i fns st = (st', out) ->
  match out with
  | Returned true =>
      exists st1, steps (chain_event i (i + length fns)) st st1 /\
                  truthy (err st1) = true /\ st' = emit (Next (err st1)) st1
  | Returned false =>
      steps (chain_event i (i + length fns)) st st' /\
      (truthy (err st) = false -> truthy (err st') = false)
  | Thrown _ => steps (chain_event i (i + length fns)) st st'
  end.
Proof.
  revert i st. induction fns as [| fn rest IH]; intros i st.
  - simpl. munfold. intros [= <- <-]. split; [apply steps_refl | done].
  - rewrite middlewares_unfold.
    destruct (call opts (Middleware i) fn st) as [st1 [v | e]] eqn:E.
    + assert (steps (chain_event i (i + length (fn :: rest))) st st1) as H1.
      { eapply call_steps; [| |exact E].
        - intros ev. apply chain_event_user.
        - intros r. apply chain_event_call. }
      destruct (truthy (err st1)) eqn:Et.
      * intros [= <- <-]. exists st1. done.
      * intros H. apply IH in H.
        assert (forall a b : state T,
                   steps (chain_event (S i) (S i + length rest)) a b ->
                            steps (chain_event i (i + length (fn :: rest))) a b) as W.
        { intros a b. apply steps_weaken. intros ev. apply chain_event_mono; simpl; lia. }
        destruct out as [[|] | e'].
        -- destruct H as (st2 & H2 & H3 & H4). exists st2. split; [|done].
           eapply steps_trans; [exact H1 | apply W, H2].
        -- destruct H as [H2 H3]. split; [|auto].
           eapply steps_trans; [exact H1 | apply W, H2].
        -- eapply steps_trans; [exact H1 | apply W, H].
    + intros [= <- <-]. eapply call_steps; [| |exact E].
      * intros ev. apply chain_event_user.
      * intros r. apply chain_event_call.
Qed.

Lemma middlewares_stays_plain id i fns st st' (out : completion bool) :
  middlewares opts i fns st = (st', out) -> send (res st) = hostSend id ->
  send (res st') = hostSend id /\ originalSend st' = originalSend st.
Proof.
  revert i st. induction fns as [| fn rest IH]; intros i st.
  - simpl. munfold. intros [= <- <-]. done.
  - rewrite middlewares_unfold.
    destruct (call opts (Middleware i) fn st) as [st1 [v | e]] eqn:E; intros H Hs;
      eapply call_stays_plain in E as [E1 E2]; try exact Hs.
    + destruct (truthy (err st1)).
      * injection H as <- <-. done.
      * apply IH in H as [H1 H2]; [|done]. split; congruence.
    + injection H as <- <-. done.
Qed.

(** The loop over a concatenation: the second part runs when the first
    part has not left the routine. *)
Lemma middlewares_app i fns1 fns2 st :
  middlewares opts i (fns1 ++ fns2) st =
    match middlewares opts i fns1 st with
    | (st1, Returned false) => middlewares opts (i + length fns1) fns2 st1
    | other => other
    end.
Proof.
  revert i st. induction fns1 as [| fn rest IH]; intros i st.
  - simpl. munfold. rewrite Nat.add_0_r. done.
  - rewrite <- app_comm_cons, !middlewares_unfold.
    destruct (call opts (Middleware i) fn st) as [st1 [v | e]]; [|done].
    destruct (truthy (err st1)); [done|].
    rewrite IH. simpl. rewrite Nat.add_succ_r. done.
Qed.

(** ** The phases of the [try] block *)

Lemma validation_eq query params body st :
  validation opts query params body st =
    validate_fields opts
      [(Query, "query", query); (Params, "params", params); (Body, "body", body)] st.
Proof.
  unfold validation, validate, callParse. munfold. simpl.
  destruct query as [q |]; [destruct (parse opts q _); [|done] |];
    (destruct params as [p |]; [destruct (parse opts p _); [|done] |]);
    (destruct body as [b |]; [destruct (parse opts b _); done | done]).
Qed.

Lemma validate_fields_spec fields st st' (c : completion unit) :
  validate_fields opts fields st = (st', c) ->
  steps is_parse st st' /\
  res st' = res st /\ originalSend st' = originalSend st /\ err st' = err st.
Proof.
  revert st. induction fields as [| [[on key] [t |]] rest IH]; intros st; simpl.
  - intros [= <- <-]. split; [apply steps_refl | done].
  - destruct (parse opts t (prop key (req st))) as [v | e].
    + intros H. apply IH in H as (H1 & H2 & H3 & H4). split; [|done].
      eapply steps_trans; [|exact H1].
      eapply steps_trans; [|apply steps_set_req]. apply steps_emit; done.
    + intros [= <- <-]. split; [|done]. apply steps_emit; done.
  - apply IH.
Qed.

Lemma validation_spec query params body st st' (c : completion unit) :
  validation opts query params body st = (st', c) ->
  steps is_parse st st' /\
  res st' = res st /\ originalSend st' = originalSend st /\ err st' = err st.
Proof. rewrite validation_eq. apply validate_fields_spec. Qed.

Lemma intercept_eq (result : option T) (cr : bool) st :
  intercept result cr st =
    (match result with
     | Some t =>
         if cr then set_send (checkedSend (send (res st)) t)
                     (set_originalSend (Some (send (res st))) st)
         else st
     | None => st
     end, Returned tt).
Proof. destruct result as [t |], cr; reflexivity. Qed.

Lemma handle_eq handler st :
  handle opts handler st =
    match call opts TheHandler handler st with
    | (st1, Returned output) =>
        if negb (headersSent (res st1)) && negb (truthy (err st1))
        then resSend opts output st1
        else (st1, Returned tt)
    | (st1, Thrown e) => (st1, Thrown e)
    end.
Proof.
  unfold handle. munfold.
  destruct (call opts TheHandler handler st) as [st1 [output | e]]; [|reflexivity].
  destruct (negb (headersSent (res st1)) && negb (truthy (err st1))); reflexivity.
Qed.

Lemma prologue_eq use query params body result cr st :
  prologue opts use query params body result cr st =
    match runUse opts use st with
    | (st1, Returned true) => (st1, Returned true)
    | (st1, Returned false) =>
        match validation opts query params body st1 with
        | (st2, Returned _) => ((intercept result cr st2).1, Returned false)
        | (st2, Thrown e) => (st2, Thrown e)
        end
    | (st1, Thrown e) => (st1, Thrown e)
    end.
Proof.
  unfold prologue. munfold.
  destruct (runUse opts use st) as [st1 [[|] | e]]; try reflexivity.
  destruct (validation opts query params body st1) as [st2 [[] | e]]; [|reflexivity].
  rewrite intercept_eq. reflexivity.
Qed.

Lemma tryBlock_eq use query params body result cr handler st :
  tryBlock opts use query params body result cr handler st =
    match prologue opts use query params body result cr st with
    | (st1, Returned true) => (st1, Returned true)
    | (st1, Returned false) =>
        match handle opts handler st1 with
        | (st2, Returned _) => (st2, Returned false)
        | (st2, Thrown e) => (st2, Thrown e)
        end
    | (st1, Thrown e) => (st1, Thrown e)
    end.
Proof.
  unfold tryBlock. munfold.
  destruct (prologue opts use query params body result cr st) as [st1 [[|] | e]];
    reflexivity.
Qed.

Lemma runUse_spec use st st' (out : completion bool) :
  runUse opts use st = (st', out) ->
  match out with
  | Returned true =>
      exists st1, steps before_handler st st1 /\ st' = emit (Next (err st1)) st1
  | Returned false =>
      steps before_handler st st' /\
      (truthy (err st) = false -> truthy (err st') = false)
  | Thrown _ => steps before_handler st st'
  end.
Proof.
  assert (forall lo hi (a b : state T),
             steps (chain_event lo hi) a b -> steps before_handler a b) as W.
  { intros lo hi a b. apply steps_weaken. intros ev. unfold chain_event.
    destruct ev as [[j |] r | [] x | | | |]; done. }
  destruct use as [fns |]; simpl.
  - intros H. apply middlewares_spec in H. destruct out as [[|] | e].
    + destruct H as (st1 & H1 & _ & H2). exists st1. eauto.
    + destruct H as [H1 H2]. eauto.
    + eauto.
  - munfold. intros [= <- <-]. split; [apply steps_refl | done].
Qed.

Lemma runUse_stays_plain id use st st' (out : completion bool) :
  runUse opts use st = (st', out) -> send (res st) = hostSend id ->
  send (res st') = hostSend id /\ originalSend st' = originalSend st.
Proof.
  destruct use as [fns |]; simpl.
  - apply middlewares_stays_plain.
  - munfold. intros [= <- <-]. done.
Qed.

Lemma prologue_spec use query params body result cr st st' (out : completion bool) :
  prologue opts use query params body result cr st = (st', out) ->
  match out with
  | Returned true =>
      exists st1, steps before_handler st st1 /\ st' = emit (Next (err st1)) st1
  | Returned false =>
      steps before_handler st st' /\
      (truthy (err st) = false -> truthy (err st') = false)
  | Thrown _ => steps before_handler st st'
  end.
Proof.
  assert (forall a b : state T, steps is_parse a b -> steps before_handler a b) as W.
  { intros a b. apply steps_weaken. intros [] ; done. }
  rewrite prologue_eq.
  destruct (runUse opts use st) as [st1 [[|] | e]] eqn:E1; apply runUse_spec in E1.
  - intros [= <- <-]. done.
  - destruct E1 as [E1 E1'].
    destruct (validation opts query params body st1) as [st2 [[] | e]] eqn:E2;
      apply validation_spec in E2 as (E2 & _ & _ & E2'); apply W in E2.
    + rewrite intercept_eq. intros [= <- <-]. split.
      * eapply steps_trans; [exact E1|]. eapply steps_trans; [exact E2|].
        destruct result as [t |], cr; try apply steps_refl.
        eapply steps_trans; [apply steps_set_originalSend | apply steps_set_send].
      * intros H. apply E1' in H. rewrite <- E2' in H.
        destruct result as [t |], cr; done.
    + intros [= <- <-]. eapply steps_trans; eassumption.
  - intros [= <- <-]. done.
Qed.

(** The shape of [res.send] when the prologue hands over to the handler:
    intercepted exactly when a result schema is there and [checkResult]
    holds. *)
Lemma prologue_installed id use query params body result cr st st' :
  prologue opts use query params body result cr st = (st', Returned false) ->
  send (res st) = hostSend id -> originalSend st = None ->
  match result with
  | Some t =>
      if cr then send (res st') = checkedSend (hostSend id) t /\
                 originalSend st' = Some (hostSend id)
      else send (res st') = hostSend id /\ originalSend st' = None
  | None => send (res st') = hostSend id /\ originalSend st' = None
  end.
Proof.
  rewrite prologue_eq. intros H Hs Ho.
  destruct (runUse opts use st) as [st1 [[|] | e]] eqn:E1; try done.
  eapply runUse_stays_plain in E1 as [E1 E1']; [|exact Hs].
  destruct (validation opts query params body st1) as [st2 [[] | e]] eqn:E2; [|done].
  apply validation_spec in E2 as (_ & E2 & E2' & _).
  rewrite intercept_eq in H. injection H as <-.
  rewrite <- E2 in E1. rewrite <- E2', Ho in E1'.
  destruct result as [t |]; [destruct cr|]; simpl; rewrite ?E1; done.
Qed.

Lemma prologue_slot id use query params body result cr st st' :
  prologue opts use query params body result cr st = (st', Returned false) ->
  send (res st) = hostSend id -> originalSend st = None -> slot id st'.
Proof.
  intros H Hs Ho. eapply prologue_installed in H; [|exact Hs|exact Ho].
  destruct result as [t |]; [destruct cr|]; destruct H as [H1 H2].
  - apply (slot_intercepted _ _ t); done.
  - apply slot_plain; done.
  - apply slot_plain; done.
Qed.

Lemma prologue_stays_plain id use query params body result cr st st'
    (out : completion bool) :
  prologue opts use query params body result cr st = (st', out) ->
  out <> Returned false ->
  send (res st) = hostSend id -> originalSend st = None ->
  send (res st') = hostSend id /\ originalSend st' = None.
Proof.
  rewrite prologue_eq. intros H Hout Hs Ho.
  destruct (runUse opts use st) as [st1 [[|] | e]] eqn:E1;
    eapply runUse_stays_plain in E1 as [E1 E1']; try exact Hs.
  - injection H as <- <-. split; congruence.
  - destruct (validation opts query params body st1) as [st2 [[] | e]] eqn:E2.
    + injection H as <- <-. done.
    + apply validation_spec in E2 as (_ & E2 & E2' & _).
      injection H as <- <-. rewrite E2, E2'. split; congruence.
  - injection H as <- <-. split; congruence.
Qed.

Lemma handle_steps handler st st' (c : completion unit) :
  handle opts handler st = (st', c) -> steps handler_event st st'.
Proof.
  assert (forall a b : state T, steps user_event a b -> steps handler_event a b) as W.
  { intros a b. apply steps_weaken. intros ev. unfold handler_event. intros ->. done. }
  rewrite handle_eq.
  destruct (call opts TheHandler handler st) as [st1 [output | e]] eqn:E.
  - eapply call_steps in E.
    + destruct (negb (headersSent (res st1)) && negb (truthy (err st1))).
      * unfold resSend. intros H. apply applySend_steps in H as [H _].
        eapply steps_trans; [exact E | apply W, H].
      * intros [= <- <-]. exact E.
    + intros ev. unfold handler_event. intros ->. done.
    + done.
  - intros [= <- <-]. eapply call_steps; [| |exact E].
    + intros ev. unfold handler_event. intros ->. done.
    + done.
Qed.

Lemma handle_slot id handler st st' (c : completion unit) :
  handle opts handler st = (st', c) -> slot id st -> slot id st'.
Proof.
  rewrite handle_eq.
  destruct (call opts TheHandler handler st) as [st1 [output | e]] eqn:E;
    intros H Hs; eapply call_slot in E; try exact Hs.
  - destruct (negb (headersSent (res st1)) && negb (truthy (err st1))).
    + eapply resSend_slot; eassumption.
    + injection H as <- <-. done.
  - injection H as <- <-. done.
Qed.

(** ** The whole invocation *)

Lemma finish_events st :
  events (finish st) = events st ++ [Next (err st)] /\ err (finish st) = err st.
Proof. unfold finish. destruct (originalSend st); done. Qed.

Lemma tryBlock_spec use query params body result cr handler st st'
    (out : completion bool) :
  tryBlock opts use query params body result cr handler st = (st', out) ->
  match out with
  | Returned true =>
      exists st1, steps not_next st st1 /\ st' = emit (Next (err st1)) st1
  | _ => steps not_next st st'
  end.
Proof.
  assert (forall a b : state T, steps before_handler a b -> steps not_next a b) as W1.
  { intros a b. apply steps_weaken. intros []; done. }
  assert (forall a b : state T, steps handler_event a b -> steps not_next a b) as W2.
  { intros a b. apply steps_weaken. intros [[] ?| [] ? | | | |]; done. }
  rewrite tryBlock_eq.
  destruct (prologue opts use query params body result cr st) as [st1 [[|] | e]] eqn:E1;
    apply prologue_spec in E1.
  - intros [= <- <-]. destruct E1 as (st2 & H1 & H2). exists st2. auto.
  - destruct E1 as [E1 _].
    destruct (handle opts handler st1) as [st2 [[] | e]] eqn:E2;
      apply handle_steps in E2; intros [= <- <-];
      (eapply steps_trans; [apply W1, E1 | apply W2, E2]).
  - intros [= <- <-]. auto.
Qed.

Lemma last_err_writes d evs : last_err d evs = default d (last (writes evs)).
Proof.
  revert d. induction evs as [| ev evs IH]; intros d; [done|].
  unfold last_err, writes in *. simpl. rewrite IH.
  destruct (err_write ev) as [e |]; [|done]. simpl.
  rewrite last_cons. destruct (last _); done.
Qed.

Lemma forwarded_app evs1 evs2 : forwarded (evs1 ++ evs2) = forwarded evs1 ++ forwarded evs2.
Proof. apply omap_app. Qed.

Lemma forwarded_not_next evs : forallb not_next evs = true -> forwarded evs = [].
Proof.
  induction evs as [| ev evs IH]; [done|]. simpl. rewrite andb_true_iff.
  intros [H1 H2]. unfold forwarded in *. simpl. rewrite IH by done.
  destruct ev; done.
Qed.

(** Every invocation: a trace without [next], then one call of [next]
    with the value of [err], which is the value written to it last. *)
Lemma invocation_trace use query params body result cr handler r rs :
  let st := requestHandler opts use query params body result cr handler r rs in
  exists evs,
    events st = evs ++ [Next (err st)] /\
    forallb not_next evs = true /\
    err st = last_err VUndefined evs.
Proof.
  unfold requestHandler.
  destruct (tryBlock opts use query params body result cr handler (enter r rs))
    as [st1 [[|] | e]] eqn:E; apply tryBlock_spec in E; cbn [conclude].
  - destruct E as (st2 & (evs & E1 & E2 & E3 & _) & ->). exists evs. simpl.
    rewrite E1. done.
  - destruct E as (evs & E1 & E2 & E3 & _). exists evs.
    destruct (finish_events st1) as [F1 F2]. rewrite F1, F2, E1. done.
  - assert (steps not_next (enter r rs) (catch e st1)) as (evs & E1 & E2 & E3 & _).
    { eapply steps_trans; [exact E | apply steps_catch; done]. }
    exists evs. destruct (finish_events (catch e st1)) as [F1 F2].
    rewrite F1, F2, E1. done.
Qed.

(** ** Statements about the specification's claims *)


(** C4.  Whatever the invocation does, when it is over [res.send] is the
    host's own send again, so a later [res.send(v)] is a plain transmit. *)
Theorem send_restored NODE_ENV route r id hs :
  let st := makeHandler opts NODE_ENV route r {| send := hostSend id; headersSent := hs |} in
  send (res st) = hostSend id /\
  forall v, resSend opts v st = transmit id v st.
Proof.
  assert (send (res (makeHandler opts NODE_ENV route r
                        {| send := hostSend id; headersSent := hs |})) = hostSend id) as H.
  { unfold makeHandler, requestHandler. rewrite tryBlock_eq.
    destruct (prologue opts _ _ _ _ _ _ _) as [st1 [[|] | e]] eqn:E1.
    - eapply prologue_stays_plain in E1 as [E1 _]; done.
    - eapply prologue_slot in E1; [|done..].
      destruct (handle opts (handler route) st1) as [st2 [[] | e]] eqn:E2;
        eapply handle_slot in E2; try exact E1; cbn [conclude].
      + apply finish_slot. done.
      + apply finish_slot, catch_slot. done.
    - eapply prologue_stays_plain in E1 as [E1 E1']; [|done..].
      cbn [conclude]. apply finish_slot, catch_slot, slot_plain; done. }
  split; [exact H|]. intros v. rewrite (resSend_plain id) by exact H. done.
Qed.

(** C2, amended.  The [err] variable is one slot that every write
    replaces: each call of [localNext] and the [catch] block assign it,
    possibly several times in one invocation, and Express's [next]
    receives the value written last ([undefined] when none was). *)
Theorem last_write_wins NODE_ENV route r rs :
  let st := makeHandler opts NODE_ENV route r rs in
  forwarded (events st) = [default VUndefined (last (writes (events st)))].
Proof.
  unfold makeHandler.
  destruct (invocation_trace (toArray <$> use route)
              (objectToType (object opts) <$> query route)
              (objectToType (object opts) <$> params route)
              (objectToType (object opts) <$> body route)
              (objectToType (object opts) <$> result route)
              (effectiveCheckResult opts NODE_ENV) (handler route) r rs)
    as (evs & E1 & E2 & E3).
  simpl. rewrite E1, forwarded_app, forwarded_not_next by done.
  unfold writes. rewrite omap_app. simpl. rewrite app_nil_r.
  rewrite E3, last_err_writes. done.
Qed.

Lemma steps_from_enter P r rs st :
  steps P (enter r rs) st -> forallb P (events st) = true.
Proof. intros (evs & E & F & _). rewrite E. done. Qed.

Lemma forallb_weaken {A} (P Q : A -> bool) (l : list A) :
  (forall x, P x = true -> Q x = true) -> forallb P l = true -> forallb Q l = true.
Proof. rewrite !forallb_forall. auto. Qed.

(** The loop at the first step that throws [f] or returns with the truthy
    [f] in [err]: nothing of what comes later is done, and Express's
    [next] is called once, with [f]. *)
Lemma short_circuit_by_state NODE_ENV route fns k fn f r rs st :
  toArray <$> use route = Some fns ->
  fns !! k = Some fn ->
  middlewares opts 0 (take k fns) (enter r rs) = (st, Returned false) ->
  fails_with f (call opts (Middleware k) fn st) ->
  let final := makeHandler opts NODE_ENV route r rs in
  forallb (fun ev => negb (later_work k ev)) (events final) = true /\
  forwarded (events final) = [f].
Proof.
  intros Huse Hk Hpre.
  assert (forall ev, chain_event 0 (S k) ev = true ->
                     negb (later_work k ev) && not_next ev = true) as W.
  { intros ev. unfold chain_event.
    destruct ev as [[j |] x | [] x | | | |]; simpl; try done.
    rewrite andb_true_r, negb_true_iff, Nat.ltb_lt, Nat.ltb_ge. lia. }
  assert (length (take k fns) = k) as Hlen.
  { apply lookup_lt_Some in Hk. rewrite length_take. lia. }
  destruct (call opts (Middleware k) fn st) as [st1 out] eqn:Ecall.
  intros Hfail final. subst final.
  assert (forallb (fun ev => negb (later_work k ev) && not_next ev) (events st1) = true)
    as Hevs.
  { apply (steps_from_enter _ r rs). eapply steps_weaken; [exact W|].
    apply middlewares_spec in Hpre as [Hpre _]. rewrite Hlen in Hpre.
    eapply steps_trans.
    - eapply steps_weaken; [|exact Hpre]. intros ev. apply chain_event_mono; lia.
    - eapply call_steps; [| |exact Ecall].
      + intros ev. apply chain_event_user.
      + intros x. apply (chain_event_mono k (k + 1)); [lia..|]. apply chain_event_call. }
  assert (forallb (fun ev => negb (later_work k ev)) (events st1) = true) as Hev1.
  { eapply forallb_weaken; [|exact Hevs]. intros ev. rewrite andb_true_iff. tauto. }
  assert (forwarded (events st1) = []) as Hev2.
  { apply forwarded_not_next. eapply forallb_weaken; [|exact Hevs].
    intros ev. rewrite andb_true_iff. tauto. }
  unfold makeHandler, requestHandler. rewrite Huse, tryBlock_eq, prologue_eq.
  cbn [runUse]. rewrite <- (take_drop_middle fns k fn Hk), middlewares_app, Hpre.
  rewrite Hlen, Nat.add_0_l, middlewares_unfold, Ecall. unfold fails_with in Hfail. simpl in Hfail.
  destruct out as [v | e].
  - destruct Hfail as [Ht <-]. rewrite Ht. cbn [conclude]. simpl.
    rewrite forallb_app, forwarded_app, Hev1, Hev2. done.
  - subst e. cbn [conclude]. destruct (finish_events (catch f st1)) as [-> _].
    simpl. rewrite <- app_assoc, forallb_app, forwarded_app, Hev1, Hev2. done.
Qed.

(** C5, amended.  When the [k]-th middleware is the first to fail, by
    throwing [f] or by returning after calls of [localNext] of which the
    last passed the truthy [f], no later middleware, no field validation
    and no handler is invoked, and Express's [next] is called once, with
    [f].  (A later [localNext] with a falsy value withdraws the signal.) *)
Theorem first_failure_short_circuits NODE_ENV route fns k fn f r rs st :
  toArray <$> use route = Some fns ->
  fns !! k = Some fn ->
  middlewares opts 0 (take k fns) (enter r rs) = (st, Returned false) ->
  step_fails f st (call opts (Middleware k) fn st) ->
  let final := makeHandler opts NODE_ENV route r rs in
  forallb (fun ev => negb (later_work k ev)) (events final) = true /\
  forwarded (events final) = [f].
Proof.
  intros Huse Hk Hpre Hfail.
  apply (short_circuit_by_state NODE_ENV route fns k fn f r rs st Huse Hk Hpre).
  unfold step_fails, fails_with in *.
  destruct (call opts (Middleware k) fn st) as [st1 [v | e]] eqn:Ecall; simpl in *;
    [|exact Hfail].
  destruct Hfail as (evs & Hev & Hlast & Ht).
  eapply (call_steps (fun _ => true)) in Ecall as (evs' & E1 & _ & E3 & _); [|done..].
  rewrite E1 in Hev. apply app_inv_head in Hev. subst evs'.
  rewrite E3, last_err_writes, Hlast. done.
Qed.

(** ** What a middleware returns *)

Lemma exec_seq p k st :
  exec opts (seq p k) st =
    match exec opts p st with
    | (st', Returned v) => exec opts (k v) st'
    | (st', Thrown e) => (st', Thrown e)
    end.
Proof.
  revert st. induction p as [v | e | f IH | key v p IH | f IH | e p IH | v f IH];
    intros st; simpl; try done.
  - munfold. apply IH.
  - munfold. apply IH.
  - destruct (resSend opts v st) as [st1 c1]. apply IH.
Qed.

Lemma call_seq c p k st :
  call opts c (seq p k) st =
    match call opts c p st with
    | (st', Returned v) => exec opts (k v) st'
    | (st', Thrown e) => (st', Thrown e)
    end.
Proof. rewrite !call_eq. apply exec_seq. Qed.

Lemma middlewares_withReturn g i fns st :
  middlewares opts i (map (withReturn g) fns) st = middlewares opts i fns st.
Proof.
  revert i st. induction fns as [| fn rest IH]; intros i st; [done|].
  cbn [map]. rewrite !middlewares_unfold. unfold withReturn at 1. rewrite call_seq.
  destruct (call opts (Middleware i) fn st) as [st1 [v | e]]; simpl; [|done].
  munfold. destruct (truthy (err st1)); [done | apply IH].
Qed.

Lemma middlewares_chain i fns st :
  no_failures opts i fns st ->
  middlewares opts i fns st = (chain opts i fns st, Returned false).
Proof.
  revert i st. induction fns as [| fn rest IH]; intros i st; [done|].
  rewrite middlewares_unfold. cbn [no_failures chain].
  destruct (call opts (Middleware i) fn st) as [st1 out]. simpl.
  intros ([v ->] & -> & H). apply IH, H.
Qed.

Lemma no_handler_call evs :
  forallb (fun ev => negb (is_handler_call ev)) evs = true ->
  omap (fun ev => match ev with Invoked TheHandler r => Some r | _ => None end) evs = [].
Proof.
  induction evs as [| ev evs IH]; [done|]. simpl. rewrite andb_true_iff.
  intros [H1 H2]. destruct ev as [[] ?| | | | |]; try done; apply IH, H2.
Qed.


Lemma handler_request_app evs1 r evs2 :
  forallb before_handler evs1 = true ->
  handler_request (evs1 ++ Invoked TheHandler r :: evs2) = Some r.
Proof.
  intros H. unfold handler_request. rewrite omap_app, no_handler_call; [done|].
  eapply forallb_weaken; [|exact H]. intros ev. unfold before_handler.
  rewrite andb_true_iff. tauto.
Qed.

Lemma handle_events handler st st' (c : completion unit) :
  handle opts handler st = (st', c) ->
  exists evs, events st' = events st ++ Invoked TheHandler (req st) :: evs.
Proof.
  rewrite handle_eq, call_eq.
  destruct (exec opts handler _) as [st1 [output | e]] eqn:E;
    apply exec_steps in E as (evs1 & E & _); simpl in E.
  - destruct (negb (headersSent (res st1)) && negb (truthy (err st1))).
    + unfold resSend. intros H. apply applySend_steps in H as [(evs2 & H & _) _].
      exists (evs1 ++ evs2). rewrite H, E, <- !app_assoc. done.
    + intros [= <- <-]. exists evs1. rewrite E, <- app_assoc. done.
  - intros [= <- <-]. exists evs1. rewrite E, <- app_assoc. done.
Qed.

Lemma conclude_events st (out : completion bool) :
  exists evs, events (conclude (st, out)) = events st ++ evs.
Proof.
  destruct out as [[|] | e]; cbn [conclude].
  - exists []. rewrite app_nil_r. done.
  - destruct (finish_events st) as [-> _]. eauto.
  - destruct (finish_events (catch e st)) as [-> _]. simpl.
    rewrite <- app_assoc. eauto.
Qed.

(** C1, amended.  In a chain without failures every step, and then the
    handler, is called on the one request object, changed in place by the
    steps before it, in list order; what a step returns is not used. *)
Theorem middleware_changes_accumulate NODE_ENV route fns r rs :
  toArray <$> use route = Some fns ->
  no_failures opts 0 fns (enter r rs) ->
  let st0 := chain opts 0 fns (enter r rs) in
  let final := makeHandler opts NODE_ENV route r rs in
  middlewares opts 0 fns (enter r rs) = (st0, Returned false) /\
  (forall st1,
      validation opts (objectToType (object opts) <$> query route)
        (objectToType (object opts) <$> params route)
        (objectToType (object opts) <$> body route) st0 = (st1, Returned tt) ->
      handler_request (events final) = Some (req st1)) /\
  (forall g,
      makeHandler opts NODE_ENV
        (withUse (Some (Array (map (withReturn g) fns))) route) r rs = final).
Proof.
  intros Huse Hok st0 final. pose proof (middlewares_chain _ _ _ Hok) as Hch.
  fold st0 in Hch. split; [exact Hch|]. split.
  - intros st1 Hval. subst final. unfold makeHandler, requestHandler.
    rewrite Huse, tryBlock_eq.
    destruct (prologue opts _ _ _ _ _ _ _) as [st2 out] eqn:Epro.
    pose proof Epro as Epro'. rewrite prologue_eq in Epro'. cbn [runUse] in Epro'.
    rewrite Hch, Hval, intercept_eq in Epro'. cbn [fst] in Epro'.
    injection Epro' as E2 <-.
    apply prologue_spec in Epro as [Epro _]. apply steps_from_enter in Epro.
    assert (req st2 = req st1) as Hreq.
    { rewrite <- E2.
      destruct (_ <$> result route); [destruct (effectiveCheckResult opts NODE_ENV)|];
        done. }
    destruct (handle opts (handler route) st2) as [st3 [[] | e]] eqn:Eh;
      apply handle_events in Eh as (evs & Eh).
    + destruct (conclude_events st3 (Returned false)) as (evs' & ->).
      rewrite Eh, <- app_assoc, <- app_comm_cons, Hreq. apply handler_request_app, Epro.
    + destruct (conclude_events st3 (Thrown e)) as (evs' & ->).
      rewrite Eh, <- app_assoc, <- app_comm_cons, Hreq. apply handler_request_app, Epro.
  - intros g. subst final. unfold makeHandler, requestHandler. rewrite Huse. simpl.
    rewrite !tryBlock_eq, !prologue_eq. cbn [runUse].
    rewrite middlewares_withReturn. done.
Qed.

(** ** Field validation and the handler phase *)


Lemma resSend_rejected id t v e st :
  send (res st) = checkedSend (hostSend id) t ->
  parse opts t v = Thrown e ->
  resSend opts v st =
    (emit (ParseCalled Result v) (set_send (hostSend id) (set_originalSend None st)),
     Thrown e).
Proof. intros Hs Hp. rewrite (resSend_intercepted id t) by done. simpl. rewrite Hp. done. Qed.

(** C7, amended.  With the interceptor still installed, a [res.send] of a
    payload that [parse] rejects with [e] transmits nothing, puts the
    host's send back and throws [e].  When that is the send of the value
    the handler returned, or a send the handler makes outside any [try],
    nothing is transmitted after it, [res.send] is the host's send at the
    end, and Express's [next] is called with [e]. *)
Theorem rejected_payload_not_transmitted NODE_ENV route r rs st1 id t v e :
  prologue opts (toArray <$> use route)
    (objectToType (object opts) <$> query route)
    (objectToType (object opts) <$> params route)
    (objectToType (object opts) <$> body route)
    (objectToType (object opts) <$> result route)
    (effectiveCheckResult opts NODE_ENV) (enter r rs) = (st1, Returned false) ->
  parse opts t v = Thrown e ->
  let final := makeHandler opts NODE_ENV route r rs in
  (forall st,
      send (res st) = checkedSend (hostSend id) t ->
      resSend opts v st =
        (emit (ParseCalled Result v) (set_send (hostSend id) (set_originalSend None st)),
         Thrown e)) /\
  (forall st,
      call opts TheHandler (handler route) st1 = (st, Returned v) ->
      send (res st) = checkedSend (hostSend id) t ->
      headersSent (res st) = false -> truthy (err st) = false ->
      events final = events st ++ [ParseCalled Result v; Caught e; Next e] /\
      send (res final) = hostSend id) /\
  (forall p rest x st,
      handler route = seq p (fun _ => SendThen v rest) ->
      call opts TheHandler p st1 = (st, Returned x) ->
      send (res st) = checkedSend (hostSend id) t ->
      events final = events st ++ [ParseCalled Result v; Caught e; Next e] /\
      send (res final) = hostSend id).
Proof.
  intros Hpro Hparse final. split; [|split].
  - intros st Hs. apply (resSend_rejected id t); done.
  - intros st Hcall Hs Hh Ht. subst final. unfold makeHandler, requestHandler.
    rewrite tryBlock_eq, Hpro, handle_eq, Hcall, Hh, Ht. cbn [negb andb].
    rewrite (resSend_rejected id t v e) by done. cbn [conclude].
    unfold finish. simpl. rewrite <- !app_assoc. done.
  - intros p rest x st Hh Hcall Hs. subst final. unfold makeHandler, requestHandler.
    rewrite tryBlock_eq, Hpro, handle_eq, Hh, call_seq, Hcall.
    unfold SendThen. cbn [exec]. rewrite (resSend_rejected id t v e) by done.
    cbn [exec]. munfold. cbn [conclude]. unfold finish. simpl.
    rewrite <- !app_assoc. done.
Qed.

(** What the events of a call tell about [err] and [headersSent]. *)
Lemma call_observed c fn st st' (out : completion value) evs :
  call opts c fn st = (st', out) ->
  events st' = events st ++ evs ->
  headersSent (res st') = headersSent (res st) || existsb is_transmitted evs /\
  (existsb is_signalled evs = false -> err st' = err st).
Proof.
  intros Hcall Hev.
  assert (steps (fun ev => negb (is_next ev) && match ev with Caught _ => false | _ => true end)
            st st') as (evs' & E1 & E2 & E3 & E4).
  { eapply call_steps; [| |exact Hcall]; [intros [| [] | | | |]; done | done]. }
  rewrite E1 in Hev. apply app_inv_head in Hev. subst evs'. split; [exact E4|].
  intros Hs. rewrite E3. clear -E2 Hs. generalize (err st).
  induction evs as [| ev evs IH]; intros d; [done|]. simpl in *.
  apply andb_true_iff in E2 as [E2 E2']. apply orb_false_iff in Hs as [Hs Hs'].
  unfold last_err in *. simpl. rewrite IH by done. destruct ev; done.
Qed.

(** C8.  When the handler returns [v] without throwing: if it called
    [localNext] at no point and nothing has been transmitted, [v] is sent
    through [res.send], to the host's send directly or, when the
    interceptor is still installed, through [parse] first; and if the
    handler itself transmitted a payload, nothing more is sent after it
    returns. *)
Theorem return_value_sent_at_most_once NODE_ENV route r id hs st1 st2 v evs :
  prologue opts (toArray <$> use route)
    (objectToType (object opts) <$> query route)
    (objectToType (object opts) <$> params route)
    (objectToType (object opts) <$> body route)
    (objectToType (object opts) <$> result route)
    (effectiveCheckResult opts NODE_ENV)
    (enter r {| send := hostSend id; headersSent := hs |}) = (st1, Returned false) ->
  call opts TheHandler (handler route) st1 = (st2, Returned v) ->
  events st2 = events st1 ++ evs ->
  let final := makeHandler opts NODE_ENV route r {| send := hostSend id; headersSent := hs |} in
  (existsb is_signalled evs = false -> headersSent (res st2) = false ->
   events final = events st2 ++
     match send (res st2) with
     | hostSend _ => [Transmitted id v; Next (err st2)]
     | checkedSend _ t =>
         ParseCalled Result v ::
         match parse opts t v with
         | Returned v' => [Transmitted id v'; Next (err st2)]
         | Thrown e => [Caught e; Next e]
         end
     end) /\
  (existsb is_transmitted evs = true ->
   events final = events st2 ++ [Next (err st2)]).
Proof.
  intros Hpro Hcall Hev final.
  destruct (call_observed _ _ _ _ _ _ Hcall Hev) as [Hh Herr].
  assert (events final = events (conclude
            match handle opts (handler route) st1 with
            | (st3, Returned _) => (st3, Returned false)
            | (st3, Thrown e) => (st3, Thrown e)
            end)) as Hfinal.
  { subst final. unfold makeHandler, requestHandler. rewrite tryBlock_eq, Hpro. done. }
  rewrite Hfinal, handle_eq, Hcall. split.
  - intros Hsig Hsent. rewrite Hsent, Herr by done.
    pose proof (prologue_spec _ _ _ _ _ _ _ _ _ Hpro) as [_ Hfalsy].
    rewrite Hfalsy by done. cbn [negb andb].
    assert (slot id st2) as Hslot.
    { eapply call_slot; [exact Hcall|]. eapply prologue_slot; [exact Hpro|done..]. }
    destruct Hslot as [Hs Ho | t Hs Ho]; rewrite Hs.
    + rewrite (resSend_plain id) by done. cbn [conclude]. unfold finish. simpl.
      rewrite Ho. simpl. rewrite <- app_assoc, Herr by done. done.
    + rewrite (resSend_intercepted id t) by done. simpl.
      destruct (parse opts t v) as [v' | e]; cbn [conclude]; unfold finish; simpl;
        rewrite <- !app_assoc, ?Herr by done; done.
  - intros Htr. rewrite Hh, Htr, orb_true_r. cbn [negb andb conclude].
    apply finish_events.
Qed.


(** C10, amended.  A handler that calls [localNext(e)] and then
    [res.send(v)] outside any [try], and returns: the payload is
    transmitted, as it is when [res.send] is the host's and as [parse]
    returns it when the interceptor is installed and [parse] accepts it;
    nothing else is sent, and Express's [next] receives [e]. *)
Theorem explicit_send_after_signal NODE_ENV route r id hs st1 e v v' x :
  prologue opts (toArray <$> use route)
    (objectToType (object opts) <$> query route)
    (objectToType (object opts) <$> params route)
    (objectToType (object opts) <$> body route)
    (objectToType (object opts) <$> result route)
    (effectiveCheckResult opts NODE_ENV)
    (enter r {| send := hostSend id; headersSent := hs |}) = (st1, Returned false) ->
  handler route = CallNext e (SendThen v (Return x)) ->
  match send (res st1) with
  | hostSend _ => v' = v
  | checkedSend _ t => parse opts t v = Returned v'
  end ->
  let final := makeHandler opts NODE_ENV route r {| send := hostSend id; headersSent := hs |} in
  events final =
    events st1 ++ [Invoked TheHandler (req st1); Signalled e] ++
    match send (res st1) with
    | hostSend _ => []
    | checkedSend _ _ => [ParseCalled Result v]
    end ++ [Transmitted id v'; Next e].
Proof.
  intros Hpro Hh Hv final.
  assert (slot id st1) as Hslot by (eapply prologue_slot; [exact Hpro|done..]).
  subst final. unfold makeHandler, requestHandler.
  rewrite tryBlock_eq, Hpro, handle_eq, Hh, call_eq. unfold SendThen. cbn [exec].
  unfold localNext. munfold.
  destruct Hslot as [Hs Ho | t Hs Ho]; rewrite Hs in Hv |- *.
  - subst v'. rewrite (resSend_plain id) by exact Hs. cbn [exec]. simpl.
    unfold finish. simpl. rewrite Ho. simpl. rewrite <- !app_assoc. done.
  - rewrite (resSend_intercepted id t) by exact Hs. simpl. rewrite Hv. simpl.
    unfold finish. simpl. rewrite <- !app_assoc. done.
Qed.

End Properties.

(** * The statements on the test suite's collaborators *)

(** ** The embedding on cases of the test suite *)

(** 'should validate req.query': the field is replaced by what [parse]
    returns. *)
Example test_validate_query :
  let route := {| use := None; query := Some (Schema Mock.type); params := None;
                  body := None; result := None; handler := Return VUndefined |} in
  prop "query" (req (Mock.run route)) = VStr "parsed".
Proof. evaluate. Qed.

(** 'should validate req.query when object provided': the plain object
    goes through [object] first. *)
Example test_object_to_type :
  objectToType Mock.obj (Props [("key", Mock.type)]) = Mock.obj [("key", Mock.type)].
Proof. reflexivity. Qed.

(** 'should not send returned data if it was already sent'. *)
Example test_sent_manually :
  let handler := SendThen (VObj [("key", VStr "send manually")])
                   (Return (VObj [("key", VStr "send on return")])) in
  List.filter is_transmitted (events (Mock.run (Mock.checked handler))) =
    [Transmitted 0 (VStr "parsed")].
Proof. evaluate. Qed.

(** 'should not send returned data if handler calls next with error'. *)
Example test_next_with_error :
  let st := Mock.run (Mock.checked (CallNext Mock.error (Return Mock.value'))) in
  List.filter is_transmitted (events st) = [] /\ forwarded (events st) = [Mock.error].
Proof. split; evaluate. Qed.

(** 'should stop processing middleware if one of them calls next with
    error'. *)
Example test_middleware_signals :
  let fns := [CallNext Mock.error (Return VUndefined); Return VUndefined] in
  events (Mock.run (Mock.withMiddleware fns (Return VUndefined))) =
    [Invoked (Middleware 0) Mock.req; Signalled Mock.error; Next Mock.error].
Proof. evaluate. Qed.

(** ** Counterexamples to the claims as worded *)

(** C1 as worded fails: the first step returns a context with [user] and
    fails in no way, yet the second step and the handler are called with a
    request that has no [user]. *)
Lemma returned_context_is_ignored :
  let adds_user := Return (VObj [("user", VNum 1)]) in
  let reads_user := ReadReq (fun r => AssignReq "seen" (prop "user" r) (Return VUndefined)) in
  let handler := ReadReq (fun r => Return (prop "user" r)) in
  no_failures Mock.opts 0 [adds_user; reads_user] (enter Mock.req Mock.res) /\
  events (Mock.run (Mock.withMiddleware [adds_user; reads_user] handler)) =
    [Invoked (Middleware 0) Mock.req;
     Invoked (Middleware 1) Mock.req;
     Invoked TheHandler (<["seen" := VUndefined]> Mock.req);
     Transmitted 0 VUndefined;
     Next VUndefined] /\
  prop "user" Mock.req = VUndefined /\
  prop "user" (<["seen" := VUndefined]> Mock.req) = VUndefined.
Proof.
  intros adds_user reads_user handler. split; [|split; [|split]].
  - vm_compute. repeat split; eauto.
  - vm_compute. reflexivity.
  - vm_compute. reflexivity.
  - vm_compute. reflexivity.
Qed.

(** C2 as worded fails: a handler that signals ["first"] and then throws
    ["second"] writes the slot twice, and Express's [next] receives the
    second value. *)
Lemma first_write_is_replaced :
  let st := Mock.run (Mock.route (CallNext (VStr "first") (Throw (VStr "second")))) in
  writes (events st) = [VStr "first"; VStr "second"] /\
  forwarded (events st) = [VStr "second"].
Proof. split; vm_compute; reflexivity. Qed.

(** C5 as worded fails: the first step calls the provided callable with
    an error and then once more with nothing; the second step and the
    handler are invoked all the same, and Express's [next] receives
    [undefined], not that error. *)
Lemma withdrawn_signal_is_no_failure :
  let signals := CallNext Mock.error (CallNext VUndefined (Return VUndefined)) in
  let fns := [signals; Return VUndefined] in
  truthy Mock.error = true /\
  events (Mock.run (Mock.withMiddleware fns (Return Mock.value'))) =
    [Invoked (Middleware 0) Mock.req;
     Signalled Mock.error;
     Signalled VUndefined;
     Invoked (Middleware 1) Mock.req;
     Invoked TheHandler Mock.req;
     Transmitted 0 Mock.value';
     Next VUndefined].
Proof. split; vm_compute; reflexivity. Qed.

(** C7 as worded fails: the handler catches the rejection of its first
    send and sends the same payload again; the rejected payload goes out
    through the host's send, and Express's [next] receives no error. *)
Lemma caught_rejection_is_not_forwarded :
  let handler :=
    CallSend Mock.invalid (fun c =>
      match c with
      | Thrown _ => SendThen Mock.invalid (Return VUndefined)
      | Returned _ => Return VUndefined
      end) in
  Mock.mock_parse Mock.type Mock.invalid = Thrown Mock.error /\
  events (Mock.run (Mock.checked handler)) =
    [Invoked TheHandler Mock.req;
     ParseCalled Result Mock.invalid;
     Transmitted 0 Mock.invalid;
     Next VUndefined].
Proof. split; vm_compute; reflexivity. Qed.

(** C10 as worded fails: with the interceptor installed, a payload sent
    after [localNext(e)] that [parse] rejects is not transmitted, and
    Express's [next] receives the validation error, not [e]. *)
Lemma rejected_send_after_signal :
  let handler := CallNext (VStr "signalled") (SendThen Mock.invalid (Return VUndefined)) in
  events (Mock.run (Mock.checked handler)) =
    [Invoked TheHandler Mock.req;
     Signalled (VStr "signalled");
     ParseCalled Result Mock.invalid;
     Caught Mock.error;
     Next Mock.error].
Proof. vm_compute. reflexivity. Qed.

(** ** The statements at work on the suite's scenarios *)

(** The state in which the handler of a [Mock.checked] route is entered:
    [res.send] intercepted, [originalSend] remembering the host's send. *)
Lemma checked_prologue (opts : Options Mock.schema) handler :
  checkResult opts = None ->
  prologue opts
    (toArray <$> use (Mock.checked handler))
    (objectToType (object opts) <$> query (Mock.checked handler))
    (objectToType (object opts) <$> params (Mock.checked handler))
    (objectToType (object opts) <$> body (Mock.checked handler))
    (objectToType (object opts) <$> result (Mock.checked handler))
    (effectiveCheckResult opts None) (enter Mock.req Mock.res) =
  (set_send (checkedSend (hostSend 0) Mock.type)
     (set_originalSend (Some (hostSend 0)) (enter Mock.req Mock.res)),
   Returned false).
Proof. intros H. unfold effectiveCheckResult. rewrite H. reflexivity. Qed.

(** C1 at work, on the two middlewares of the suite: the handler is
    entered with the request carrying [one] and [two]. *)
Lemma middleware_changes_accumulate_witness :
  let one := AssignReq "one" (VNum 123) (ReadReq (fun r => Return (VObj (map_to_list r)))) in
  let two := AssignReq "two" (VStr "string") (ReadReq (fun r => Return (VObj (map_to_list r)))) in
  handler_request (events (Mock.run (Mock.withMiddleware [one; two] (Return VUndefined)))) =
    Some (<["two" := VStr "string"]> (<["one" := VNum 123]> Mock.req)).
Proof.
  intros one two.
  assert (no_failures Mock.opts 0 [one; two] (enter Mock.req Mock.res)) as Hok.
  { vm_compute. repeat split; eauto. }
  pose proof (middleware_changes_accumulate Mock.opts None
                (Mock.withMiddleware [one; two] (Return VUndefined)) [one; two]
                Mock.req Mock.res eq_refl Hok) as H.
  cbv zeta in H. destruct H as (_ & H & _). unfold Mock.run.
  rewrite (H (chain Mock.opts 0 [one; two] (enter Mock.req Mock.res)) eq_refl).
  evaluate.
Defined.

(** C5 at work: the second of three middlewares fails, once by calling
    the provided callable with an error and once by throwing. *)
Lemma first_failure_short_circuits_witness :
  let signalling := [Return VUndefined; CallNext Mock.error (Return VUndefined);
                     Return VUndefined] in
  let throwing := [Return VUndefined; Throw Mock.error; Return VUndefined] in
  let signalled := Mock.run (Mock.withMiddleware signalling (Return VUndefined)) in
  let thrown := Mock.run (Mock.withMiddleware throwing (Return VUndefined)) in
  (forallb (fun ev => negb (later_work 1 ev)) (events signalled) = true /\
   forwarded (events signalled) = [Mock.error]) /\
  (forallb (fun ev => negb (later_work 1 ev)) (events thrown) = true /\
   forwarded (events thrown) = [Mock.error]).
Proof.
  intros signalling throwing signalled thrown. split.
  - apply (first_failure_short_circuits Mock.opts None
             (Mock.withMiddleware signalling (Return VUndefined)) signalling 1
             (CallNext Mock.error (Return VUndefined)) Mock.error Mock.req Mock.res
             (middlewares Mock.opts 0 [Return VUndefined] (enter Mock.req Mock.res)).1).
    + reflexivity.
    + reflexivity.
    + evaluate.
    + exists [Invoked (Middleware 1) Mock.req; Signalled Mock.error].
      split; [evaluate|]. split; reflexivity.
  - apply (first_failure_short_circuits Mock.opts None
             (Mock.withMiddleware throwing (Return VUndefined)) throwing 1
             (Throw Mock.error) Mock.error Mock.req Mock.res
             (middlewares Mock.opts 0 [Return VUndefined] (enter Mock.req Mock.res)).1).
    + reflexivity.
    + reflexivity.
    + evaluate.
    + evaluate.
Defined.


(** C7 at work: the handler returns a payload that [parse] rejects. *)
Lemma rejected_payload_not_transmitted_witness :
  let final := Mock.run (Mock.checked (Return Mock.invalid)) in
  events final =
    [Invoked TheHandler Mock.req; ParseCalled Result Mock.invalid;
     Caught Mock.error; Next Mock.error] /\
  send (res final) = hostSend 0.
Proof.
  intros final.
  pose proof (rejected_payload_not_transmitted Mock.opts None (Mock.checked (Return Mock.invalid))
                Mock.req Mock.res _ 0 Mock.type Mock.invalid Mock.error
                (checked_prologue Mock.opts _ eq_refl) eq_refl) as H.
  cbv zeta in H. destruct H as (_ & H & _).
  destruct (H (call Mock.opts TheHandler (Return Mock.invalid)
                 (set_send (checkedSend (hostSend 0) Mock.type)
                    (set_originalSend (Some (hostSend 0)) (enter Mock.req Mock.res)))).1)
    as [H1 H2]; try reflexivity.
  split; [|exact H2]. subst final. unfold Mock.run. rewrite H1. evaluate.
Defined.

(** C8 at work: the handler returns a payload that [parse] accepts. *)
Lemma return_value_sent_at_most_once_witness :
  events (Mock.run (Mock.checked (Return Mock.value'))) =
    [Invoked TheHandler Mock.req; ParseCalled Result Mock.value';
     Transmitted 0 (VStr "parsed"); Next VUndefined].
Proof.
  pose proof (return_value_sent_at_most_once Mock.opts None (Mock.checked (Return Mock.value'))
                Mock.req 0 false _
                (call Mock.opts TheHandler (Return Mock.value')
                   (set_send (checkedSend (hostSend 0) Mock.type)
                      (set_originalSend (Some (hostSend 0)) (enter Mock.req Mock.res)))).1
                Mock.value' [Invoked TheHandler Mock.req]
                (checked_prologue Mock.opts _ eq_refl) eq_refl eq_refl) as H.
  cbv zeta in H. destruct H as [H _]. unfold Mock.run, Mock.res.
  rewrite (H eq_refl eq_refl). evaluate.
Defined.


(** C10 at work: the handler signals, then sends a payload that [parse]
    accepts. *)
Lemma explicit_send_after_signal_witness :
  let handler := CallNext (VStr "signalled") (SendThen Mock.value' (Return VUndefined)) in
  events (Mock.run (Mock.checked handler)) =
    [Invoked TheHandler Mock.req; Signalled (VStr "signalled");
     ParseCalled Result Mock.value'; Transmitted 0 (VStr "parsed");
     Next (VStr "signalled")].
Proof.
  intros handler.
  pose proof (explicit_send_after_signal Mock.opts None (Mock.checked handler)
                Mock.req 0 false _ (VStr "signalled") Mock.value' (VStr "parsed") VUndefined
                (checked_prologue Mock.opts _ eq_refl) eq_refl eq_refl) as H.
  cbv zeta in H. unfold Mock.run, Mock.res. rewrite H. evaluate.
Defined.

(** * Further properties of the routine *)

Section Coverage.

Context {T : Type}.
Variable opts : Options T.

Implicit Types (st : state T) (fn : Fn) (v e : value) (evs : list event).

(** The routine, by the outcome of its prologue. *)
Lemma makeHandler_eq NODE_ENV route r rs :
  makeHandler opts NODE_ENV route r rs =
    conclude
      match routePrologue opts NODE_ENV route (enter r rs) with
      | (st1, Returned true) => (st1, Returned true)
      | (st1, Returned false) =>
          match handle opts (handler route) st1 with
          | (st2, Returned _) => (st2, Returned false)
          | (st2, Thrown e) => (st2, Thrown e)
          end
      | (st1, Thrown e) => (st1, Thrown e)
      end.
Proof. unfold makeHandler, requestHandler. rewrite tryBlock_eq. reflexivity. Qed.

(** ** The handler's own failures *)

(** X2.  A handler that throws [e], at once or after an [await]: the routine
    sends nothing after the throw and calls Express's [next] with [e],
    whatever [err] held before. *)
Theorem handler_throw_is_forwarded NODE_ENV route r rs st1 st2 e :
  routePrologue opts NODE_ENV route (enter r rs) = (st1, Returned false) ->
  call opts TheHandler (handler route) st1 = (st2, Thrown e) ->
  let final := makeHandler opts NODE_ENV route r rs in
  events final = events st2 ++ [Caught e; Next e] /\ err final = e.
Proof.
  intros Hpro Hcall final. subst final.
  rewrite makeHandler_eq, Hpro, handle_eq, Hcall. cbn [conclude].
  destruct (finish_events (catch e st2)) as [-> ->]. simpl.
  rewrite <- app_assoc. done.
Qed.

(** X3.  A handler that returns while [err] holds a truthy value it signalled:
    what it returns is not sent, and Express's [next] receives [err]. *)
Theorem signalled_error_suppresses_send NODE_ENV route r rs st1 st2 v :
  routePrologue opts NODE_ENV route (enter r rs) = (st1, Returned false) ->
  call opts TheHandler (handler route) st1 = (st2, Returned v) ->
  truthy (err st2) = true ->
  let final := makeHandler opts NODE_ENV route r rs in
  events final = events st2 ++ [Next (err st2)].
Proof.
  intros Hpro Hcall Herr final. subst final.
  rewrite makeHandler_eq, Hpro, handle_eq, Hcall, Herr, andb_false_r. cbn [conclude].
  apply finish_events.
Qed.

Lemma applySend_err f v st st' (c : completion unit) :
  applySend opts f v st = (st', c) -> err st' = err st.
Proof.
  revert v st. induction f as [id | f IH t]; intros v st; simpl.
  - unfold transmit. munfold. intros [= <- <-]. done.
  - unfold callParse. munfold. simpl. destruct (parse opts t v) as [v' | e].
    + intros H. apply IH in H. done.
    + intros [= <- <-]. done.
Qed.

(** X4.  Only what [err] holds when the handler returns counts: a handler that
    returns [v] with [err] falsy (never signalled, signalled a falsy
    value, or cleared with [next()]) and [headersSent] false has [v] sent
    through [res.send]; Express's [next] then receives [err], or what the
    send threw. *)
Theorem falsy_error_lets_send NODE_ENV route r rs st1 st2 v :
  routePrologue opts NODE_ENV route (enter r rs) = (st1, Returned false) ->
  call opts TheHandler (handler route) st1 = (st2, Returned v) ->
  truthy (err st2) = false -> headersSent (res st2) = false ->
  let final := makeHandler opts NODE_ENV route r rs in
  match resSend opts v st2 with
  | (st3, Returned _) => final = finish st3 /\ forwarded (events final) = [err st2]
  | (st3, Thrown e) => final = finish (catch e st3) /\ forwarded (events final) = [e]
  end.
Proof.
  intros Hpro Hcall Herr Hsent final. subst final.
  rewrite makeHandler_eq, Hpro, handle_eq, Hcall, Herr, Hsent. cbn [negb andb].
  assert (forwarded (events st2) = []) as Hf.
  { apply forwarded_not_next.
    apply prologue_spec in Hpro as [Hpro _].
    eapply (call_steps _ not_next) in Hcall; [| intros [| [] | | | |]; done | done].
    apply (steps_from_enter _ r rs). eapply steps_trans; [|exact Hcall].
    eapply steps_weaken; [|exact Hpro]. intros ev. unfold before_handler, not_next.
    rewrite andb_true_iff. tauto. }
  destruct (resSend opts v st2) as [st3 [[] | e]] eqn:E; cbn [conclude]; (split; [done|]);
    unfold resSend in E; pose proof (applySend_err _ _ _ _ _ E) as Herr3;
    apply applySend_steps in E as [(evs & E1 & E2 & _) _];
    assert (forwarded evs = []) as Hf'
      by (apply forwarded_not_next; eapply forallb_weaken; [|exact E2];
          intros [| [] | | | |]; done).
  - destruct (finish_events st3) as [-> _].
    rewrite E1, !forwarded_app, Hf, Hf', Herr3. done.
  - destruct (finish_events (catch e st3)) as [-> _]. simpl.
    rewrite E1, <- !app_assoc, !forwarded_app, Hf, Hf'. done.
Qed.

(** X5.  On a response whose [headersSent] is already true when the routine is
    called, what the handler returns is never sent. *)
Theorem sent_response_is_left_alone NODE_ENV route r rs st1 st2 v :
  headersSent rs = true ->
  routePrologue opts NODE_ENV route (enter r rs) = (st1, Returned false) ->
  call opts TheHandler (handler route) st1 = (st2, Returned v) ->
  let final := makeHandler opts NODE_ENV route r rs in
  events final = events st2 ++ [Next (err st2)].
Proof.
  intros Hsent Hpro Hcall final. subst final.
  rewrite makeHandler_eq, Hpro, handle_eq, Hcall.
  apply prologue_spec in Hpro as [(evs1 & _ & _ & _ & H1) _].
  eapply (call_steps _ (fun _ => true)) in Hcall as (evs2 & _ & _ & _ & H2); [|done..].
  simpl in H1. rewrite H2, H1, Hsent. cbn [orb negb andb conclude].
  apply finish_events.
Qed.

(** ** Counting transmits *)

Lemma transmits_app evs1 evs2 :
  transmits (evs1 ++ evs2) = (transmits evs1 + transmits evs2)%nat.
Proof. unfold transmits. rewrite List.filter_app, length_app. done. Qed.

Lemma transmits_none evs :
  forallb (fun ev => negb (is_transmitted ev)) evs = true -> transmits evs = 0%nat.
Proof.
  unfold transmits. induction evs as [| ev evs IH]; [done|]. simpl.
  rewrite andb_true_iff. intros [H1 H2]. apply negb_true_iff in H1. rewrite H1. auto.
Qed.

Lemma steps_transmits P st st' :
  (forall ev, P ev = true -> is_transmitted ev = false) ->
  steps P st st' -> transmits (events st') = transmits (events st).
Proof.
  intros HP (evs & E & F & _). rewrite E, transmits_app, (transmits_none evs); [lia|].
  eapply forallb_weaken; [|exact F]. intros ev H. rewrite (HP ev H). done.
Qed.

(** The field validations parse request fields and nothing else. *)
Lemma validate_fields_field_steps fields st st' (c : completion unit) :
  Forall (fun f : target * string * option T => f.1.1 <> Result) fields ->
  validate_fields opts fields st = (st', c) -> steps is_field_parse st st'.
Proof.
  intros HF. revert st.
  induction HF as [| [[on key] [t |]] rest Hon HF IH]; intros st; simpl.
  - intros [= <- <-]. apply steps_refl.
  - simpl in Hon. destruct (parse opts t (prop key (req st))) as [v | e].
    + intros H. apply IH in H. eapply steps_trans; [|exact H].
      eapply steps_trans; [|apply steps_set_req]. apply steps_emit; destruct on; done.
    + intros [= <- <-]. apply steps_emit; destruct on; done.
  - apply IH.
Qed.

Lemma validation_field_steps query params body st st' (c : completion unit) :
  validation opts query params body st = (st', c) -> steps is_field_parse st st'.
Proof.
  rewrite validation_eq. apply validate_fields_field_steps.
  repeat constructor; done.
Qed.

(** ** The order of the phases *)

Lemma middleware_calls_app evs1 evs2 :
  middleware_calls (evs1 ++ evs2) = middleware_calls evs1 ++ middleware_calls evs2.
Proof. apply omap_app. Qed.

Lemma middleware_calls_none P evs :
  (forall j x, P (Invoked (Middleware j) x) = false) ->
  forallb P evs = true -> middleware_calls evs = [].
Proof.
  intros HP. induction evs as [| ev evs IH]; [done|]. simpl. rewrite andb_true_iff.
  intros [H1 H2]. unfold middleware_calls in *. simpl.
  destruct ev as [[j |] x | | | | |]; try (apply IH, H2). rewrite HP in H1. done.
Qed.

Lemma middlewares_shape i fns st st' (out : completion bool) :
  middlewares opts i fns st = (st', out) ->
  exists st1 evs m,
    events st1 = events st ++ evs /\
    forallb (chain_event i (i + length fns)) evs = true /\
    middleware_calls evs = List.seq i m /\ (m <= length fns)%nat /\
    match out with
    | Returned true => st' = emit (Next (err st1)) st1
    | Returned false => st' = st1 /\ m = length fns
    | Thrown _ => st' = st1
    end.
Proof.
  revert i st. induction fns as [| fn rest IH]; intros i st.
  - simpl. munfold. intros [= <- <-]. exists st, [], 0%nat.
    rewrite app_nil_r. done.
  - rewrite middlewares_unfold.
    destruct (call opts (Middleware i) fn st) as [st1 c] eqn:E.
    rewrite call_eq in E. apply exec_steps in E as (evs1 & E1 & F1 & _). simpl in E1.
    rewrite <- app_assoc in E1. simpl in E1.
    assert (forallb (chain_event i (i + length (fn :: rest)))
              (Invoked (Middleware i) (req st) :: evs1) = true) as F1'.
    { simpl. rewrite chain_event_call. simpl.
      eapply forallb_weaken; [|exact F1]. intros ev. apply chain_event_user. }
    assert (middleware_calls (Invoked (Middleware i) (req st) :: evs1) = [i]) as M1.
    { change (middleware_calls (Invoked (Middleware i) (req st) :: evs1))
        with (i :: middleware_calls evs1).
      rewrite (middleware_calls_none user_event); done. }
    destruct c as [v | e].
    + destruct (truthy (err st1)).
      * intros [= <- <-]. exists st1, (Invoked (Middleware i) (req st) :: evs1), 1%nat.
        simpl. repeat split; try done. lia.
      * intros H. apply IH in H as (st2 & evs2 & m & E2 & F2 & M2 & Hm & Hout).
        exists st2, ((Invoked (Middleware i) (req st) :: evs1) ++ evs2), (S m).
        repeat split.
        -- rewrite E2, E1, <- app_assoc. done.
        -- rewrite forallb_app, F1'. simpl.
           eapply forallb_weaken; [|exact F2]. intros ev.
           apply chain_event_mono; simpl; lia.
        -- rewrite middleware_calls_app, M1, M2. done.
        -- simpl. lia.
        -- destruct out as [[|] | e]; try done. destruct Hout as [-> ->]. done.
    + intros [= <- <-]. exists st1, (Invoked (Middleware i) (req st) :: evs1), 1%nat.
      simpl. repeat split; try done. lia.
Qed.

Lemma runUse_shape use st st' (out : completion bool) :
  runUse opts use st = (st', out) ->
  exists st1 evs m,
    events st1 = events st ++ evs /\
    forallb (chain_event 0 (length (default [] use))) evs = true /\
    middleware_calls evs = List.seq 0 m /\ (m <= length (default [] use))%nat /\
    match out with
    | Returned true => st' = emit (Next (err st1)) st1
    | Returned false => st' = st1 /\ m = length (default [] use)
    | Thrown _ => st' = st1
    end.
Proof.
  destruct use as [fns |]; simpl.
  - apply middlewares_shape.
  - munfold. intros [= <- <-]. exists st, [], 0%nat. rewrite app_nil_r. done.
Qed.

(** The trace of an invocation: the middleware phase, then the field
    validations, then the handler phase with the [catch] block and the
    call of [next]. *)
Lemma invocation_shape NODE_ENV route r rs :
  let final := makeHandler opts NODE_ENV route r rs in
  let n := length (default [] (toArray <$> use route)) in
  exists A B C m,
    events final = A ++ B ++ C /\
    forallb (chain_event 0 n) A = true /\
    forallb is_field_parse B = true /\
    forallb late_event C = true /\
    middleware_calls A = List.seq 0 m /\ (m <= n)%nat /\
    (existsb is_handler_call C = true -> m = n).
Proof.
  intros final n. subst final. rewrite makeHandler_eq. unfold routePrologue.
  rewrite prologue_eq.
  destruct (runUse opts (toArray <$> use route) (enter r rs)) as [st1 out] eqn:E1.
  apply runUse_shape in E1 as (st0 & A & m & EA & FA & MA & Hm & Hout).
  simpl in EA. fold n in FA, Hm, Hout.
  destruct out as [[|] | e].
  - subst st1. cbn [conclude]. exists A, [], [Next (err st0)], m. simpl.
    rewrite EA. done.
  - destruct Hout as [-> ->].
    destruct (validation opts _ _ _ st0) as [st2 [[] | e]] eqn:E2;
      apply validation_field_steps in E2 as (B & EB & FB & _).
    + rewrite intercept_eq. cbn [fst].
      match goal with |- context [handle opts ?h ?s] =>
        destruct (handle opts h s) as [st3 c] eqn:E3;
        assert (events s = A ++ B) as E3'
      end.
      { destruct (_ <$> result route); [destruct (effectiveCheckResult opts NODE_ENV)|];
          simpl; congruence. }
      apply handle_steps in E3 as (C & EC & FC & _). rewrite E3' in EC.
      assert (forallb late_event C = true) as FC'.
      { eapply forallb_weaken; [|exact FC]. intros ev H. unfold late_event.
        rewrite H. done. }
      destruct c as [[] | e]; cbn [conclude].
      * destruct (finish_events st3) as [-> _].
        exists A, B, (C ++ [Next (err st3)]), n. rewrite EC, <- !app_assoc.
        repeat split; try done. rewrite forallb_app, FC'. done.
      * destruct (finish_events (catch e st3)) as [-> _]. simpl.
        exists A, B, (C ++ [Caught e; Next e]), n. rewrite EC, <- !app_assoc.
        repeat split; try done. rewrite forallb_app, FC'. done.
    + cbn [conclude]. destruct (finish_events (catch e st2)) as [-> _]. simpl.
      exists A, B, [Caught e; Next e], n. rewrite EB, EA, <- !app_assoc. done.
  - subst st1. cbn [conclude]. destruct (finish_events (catch e st0)) as [-> _]. simpl.
    exists A, [], [Caught e; Next e], m. rewrite EA, <- app_assoc. done.
Qed.

(** X7.  Within one invocation the middleware phase comes first, then the field
    validations, then the handler phase: no middleware is entered after a
    field was parsed, and no field is parsed once the handler was entered
    or [next] called. *)
Theorem phases_in_order NODE_ENV route r rs :
  let final := makeHandler opts NODE_ENV route r rs in
  let n := length (default [] (toArray <$> use route)) in
  exists A B C,
    events final = A ++ B ++ C /\
    forallb (chain_event 0 n) A = true /\
    forallb is_field_parse B = true /\
    forallb late_event C = true.
Proof.
  intros final n.
  destruct (invocation_shape NODE_ENV route r rs) as (A & B & C & m & H1 & H2 & H3 & H4 & _).
  exists A, B, C. done.
Qed.

Lemma handler_call_exists evs :
  is_Some (handler_request evs) -> existsb is_handler_call evs = true.
Proof.
  unfold handler_request. induction evs as [| ev evs IH]; simpl.
  - intros [x Hx]. done.
  - destruct ev as [[j |] x | | | | |]; simpl; auto.
Qed.

(** X8.  The middlewares are entered in list order, each at most once and
    without gaps: the numbers entered are [0, 1, ..., m-1] for some [m]
    up to the length of [use]; and when the handler was entered, every
    middleware was entered before. *)
Theorem middlewares_entered_in_order NODE_ENV route r rs :
  let final := makeHandler opts NODE_ENV route r rs in
  let n := length (default [] (toArray <$> use route)) in
  exists m,
    (m <= n)%nat /\
    middleware_calls (events final) = List.seq 0 m /\
    (is_Some (handler_request (events final)) -> m = n).
Proof.
  intros final n.
  destruct (invocation_shape NODE_ENV route r rs)
    as (A & B & C & m & H1 & H2 & H3 & H4 & H5 & H6 & H7).
  fold final in H1. fold n in H2, H6, H7. exists m. split; [exact H6|]. split.
  - rewrite H1, !middleware_calls_app, H5.
    rewrite (middleware_calls_none is_field_parse B), (middleware_calls_none late_event C);
      try done. rewrite app_nil_r. done.
  - intros Hh. apply H7. rewrite H1 in Hh. unfold handler_request in Hh.
    rewrite !omap_app in Hh. rewrite (no_handler_call A), (no_handler_call B) in Hh.
    + apply handler_call_exists, Hh.
    + eapply forallb_weaken; [|exact H3]. intros [[] ?| [] ? | | | |]; done.
    + eapply forallb_weaken; [|exact H2]. intros ev. unfold chain_event.
      destruct ev as [[j |] x | [] x | | | |]; done.
Qed.

(** ** Transmits *)

Lemma exec_never_sends fn :
  never_sends fn ->
  forall st st' (c : completion value),
    exec opts fn st = (st', c) -> steps (fun ev => negb (is_transmitted ev)) st st'.
Proof.
  induction 1 as [v | e | k Hk IH | key v k Hk IH | k Hk IH | e k Hk IH];
    intros st st' c; simpl.
  - munfold. intros [= <- <-]. apply steps_refl.
  - munfold. intros [= <- <-]. apply steps_refl.
  - apply IH.
  - munfold. intros H. apply IH in H.
    eapply steps_trans; [apply steps_set_req | exact H].
  - apply IH.
  - unfold localNext. munfold. intros H. apply IH in H.
    eapply steps_trans; [apply steps_localNext | exact H]. done.
Qed.

Lemma middlewares_never_send i fns st st' (out : completion bool) :
  Forall never_sends fns ->
  middlewares opts i fns st = (st', out) ->
  steps (fun ev => negb (is_transmitted ev)) st st'.
Proof.
  intros HF. revert i st. induction HF as [| fn rest Hfn HF IH]; intros i st.
  - simpl. munfold. intros [= <- <-]. apply steps_refl.
  - rewrite middlewares_unfold, call_eq.
    destruct (exec opts fn _) as [st1 [v | e]] eqn:E;
      apply (exec_never_sends _ Hfn) in E;
      assert (steps (fun ev => negb (is_transmitted ev)) st st1) as H1
        by (eapply steps_trans; [|exact E]; apply steps_emit; done).
    + destruct (truthy (err st1)).
      * intros [= <- <-]. eapply steps_trans; [exact H1 | apply steps_emit; done].
      * intros H. apply IH in H. eapply steps_trans; eassumption.
    + intros [= <- <-]. exact H1.
Qed.

Lemma applySend_transmits f v st st' (c : completion unit) :
  applySend opts f v st = (st', c) ->
  (transmits (events st') <= transmits (events st) + 1)%nat.
Proof.
  revert v st. induction f as [id | f IH t]; intros v st; simpl.
  - unfold transmit. munfold. intros [= <- <-]. simpl. rewrite transmits_app.
    unfold transmits. simpl. lia.
  - unfold callParse. munfold. simpl. destruct (parse opts t v) as [v' | e].
    + intros H. apply IH in H. simpl in H. rewrite transmits_app in H.
      unfold transmits in *. simpl in H. lia.
    + intros [= <- <-]. simpl. rewrite transmits_app. unfold transmits. simpl. lia.
Qed.

(** X9.  When no middleware and not the handler ever calls [res.send], one
    invocation transmits at most one payload. *)
Theorem at_most_one_transmit NODE_ENV route r rs :
  Forall never_sends (default [] (toArray <$> use route)) ->
  never_sends (handler route) ->
  (transmits (events (makeHandler opts NODE_ENV route r rs)) <= 1)%nat.
Proof.
  intros Huse Hh.
  assert (forall (a b : state T), steps (fun ev => negb (is_transmitted ev)) a b ->
            transmits (events b) = transmits (events a)) as Hsame.
  { intros a b. apply steps_transmits. intros ev. apply negb_true_iff. }
  assert (forall st (out : completion bool),
            transmits (events (conclude (st, out))) = transmits (events st)) as Hcon.
  { intros st [[|] | e]; cbn [conclude]; [done | |].
    - destruct (finish_events st) as [-> _]. rewrite transmits_app.
      unfold transmits. simpl. lia.
    - destruct (finish_events (catch e st)) as [-> _]. simpl.
      rewrite !transmits_app. unfold transmits. simpl. lia. }
  rewrite makeHandler_eq. unfold routePrologue. rewrite prologue_eq.
  destruct (runUse opts _ (enter r rs)) as [st1 out] eqn:E1.
  assert (transmits (events st1) = 0%nat) as H1.
  { rewrite (Hsame (enter r rs) st1); [done|].
    destruct (toArray <$> use route) as [fns |]; simpl in E1, Huse.
    - eapply middlewares_never_send; eassumption.
    - munfold. injection E1 as <- <-. apply steps_refl. }
  destruct out as [[|] | e]; try (rewrite Hcon; lia).
  destruct (validation opts _ _ _ st1) as [st2 [[] | e]] eqn:E2;
    apply validation_field_steps in E2;
    apply (steps_transmits is_field_parse) in E2;
    try (intros [[] x | [] x | | | |]; done); [|rewrite Hcon; lia].
  rewrite intercept_eq. cbn [fst]. rewrite handle_eq, call_eq.
  match goal with |- context [exec opts ?h ?s] =>
    destruct (exec opts h s) as [st3 [output | e]] eqn:E3;
    assert (transmits (events st3) = 0%nat) as H3
  end.
  1, 3: apply (exec_never_sends _ Hh), Hsame in E3; rewrite E3; simpl;
    rewrite transmits_app;
    (assert (forall a : state T,
        transmits (events match objectToType (object opts) <$> result route with
                          | Some t =>
                              if effectiveCheckResult opts NODE_ENV
                              then set_send (checkedSend (send (res a)) t)
                                     (set_originalSend (Some (send (res a))) a)
                              else a
                          | None => a
                          end) = transmits (events a)) as ->
      by (intros a; destruct (_ <$> result route);
          [destruct (effectiveCheckResult opts NODE_ENV)|]; done));
    unfold transmits at 2; simpl; lia.
  - destruct (negb (headersSent (res st3)) && negb (truthy (err st3))).
    + unfold resSend. destruct (applySend opts _ output st3) as [st4 [[] | e]] eqn:E4;
        apply applySend_transmits in E4; rewrite Hcon; lia.
    + rewrite Hcon. lia.
  - rewrite Hcon. lia.
Qed.

(** ** The request after field validation *)

Lemma prop_insert_ne key key' v (r : Request) :
  key <> key' -> prop key' (<[key := v]> r) = prop key' r.
Proof. intros H. unfold prop. rewrite lookup_insert_ne by done. done. Qed.

Lemma prop_insert_eq key v (r : Request) : prop key (<[key := v]> r) = v.
Proof. unfold prop. rewrite lookup_insert_eq. done. Qed.

Lemma validation_results query params body st st' :
  validation opts query params body st = (st', Returned tt) ->
  (forall t, query = Some t ->
             parse opts t (prop "query" (req st)) = Returned (prop "query" (req st'))) /\
  (forall t, params = Some t ->
             parse opts t (prop "params" (req st)) = Returned (prop "params" (req st'))) /\
  (forall t, body = Some t ->
             parse opts t (prop "body" (req st)) = Returned (prop "body" (req st'))) /\
  (forall key,
      (key = "query" -> query = None) ->
      (key = "params" -> params = None) ->
      (key = "body" -> body = None) ->
      req st' !! key = req st !! key).
Proof.
  rewrite validation_eq. intros Hval.
  destruct query as [q |], params as [p |], body as [b |];
    simpl in Hval;
    repeat match type of Hval with
           | context [parse opts ?t ?x] =>
               let E := fresh "E" in
               destruct (parse opts t x) as [? | ?] eqn:E; [|discriminate Hval]
           end;
    injection Hval as <-; simpl;
    rewrite ?prop_insert_ne in * by done;
    (split; [|split; [|split]]);
    try (intros t [= <-]; rewrite ?prop_insert_ne by done; rewrite ?prop_insert_eq;
         assumption);
    try (intros t [=]);
    (intros key Hq Hp Hb;
     rewrite ?lookup_insert_ne
       by (intros <-;
           first [discriminate (Hq eq_refl) | discriminate (Hp eq_refl)
                 | discriminate (Hb eq_refl)]);
     reflexivity).
Qed.

Lemma handler_entered_after_validation NODE_ENV route r rs st st' :
  runUse opts (toArray <$> use route) (enter r rs) = (st, Returned false) ->
  routeValidation opts route st = (st', Returned tt) ->
  handler_request (events (makeHandler opts NODE_ENV route r rs)) = Some (req st').
Proof.
  intros Hrun Hval.
  rewrite makeHandler_eq. unfold routePrologue. rewrite prologue_eq, Hrun.
  unfold routeValidation in Hval. rewrite Hval, intercept_eq. cbn [fst].
  apply runUse_spec in Hrun as [Hrun _].
  apply validation_spec in Hval as [Hval _].
  assert (forallb before_handler (events st') = true) as Hev.
  { apply (steps_from_enter _ r rs). eapply steps_trans; [exact Hrun|].
    eapply steps_weaken; [|exact Hval]. intros []; done. }
  match goal with |- context [handle opts ?h ?s] =>
    destruct (handle opts h s) as [st3 c] eqn:E3;
    assert (events s = events st' /\ req s = req st') as [E3' E3'']
  end.
  { destruct (_ <$> result route); [destruct (effectiveCheckResult opts NODE_ENV)|];
      done. }
  apply handle_events in E3 as (evs & E3). rewrite E3', E3'' in E3.
  destruct c as [[] | e].
  - destruct (conclude_events st3 (Returned false)) as (evs' & ->).
    rewrite E3, <- app_assoc, <- app_comm_cons. apply handler_request_app, Hev.
  - destruct (conclude_events st3 (Thrown e)) as (evs' & ->).
    rewrite E3, <- app_assoc, <- app_comm_cons. apply handler_request_app, Hev.
Qed.

(** X10.  When all configured validations pass, the handler is entered with a
    request in which each configured field holds what [parse] returned for
    the value the field had after the middleware (the three parses do not
    see each other's results), and every other property is untouched. *)
Theorem validated_fields_reach_handler NODE_ENV route r rs st st' :
  runUse opts (toArray <$> use route) (enter r rs) = (st, Returned false) ->
  routeValidation opts route st = (st', Returned tt) ->
  let final := makeHandler opts NODE_ENV route r rs in
  handler_request (events final) = Some (req st') /\
  (forall t, objectToType (object opts) <$> query route = Some t ->
             parse opts t (prop "query" (req st)) = Returned (prop "query" (req st'))) /\
  (forall t, objectToType (object opts) <$> params route = Some t ->
             parse opts t (prop "params" (req st)) = Returned (prop "params" (req st'))) /\
  (forall t, objectToType (object opts) <$> body route = Some t ->
             parse opts t (prop "body" (req st)) = Returned (prop "body" (req st'))) /\
  (forall key,
      (key = "query" -> query route = None) ->
      (key = "params" -> params route = None) ->
      (key = "body" -> body route = None) ->
      req st' !! key = req st !! key).
Proof.
  intros Hrun Hval final. split.
  - apply handler_entered_after_validation with st; assumption.
  - unfold routeValidation in Hval. apply validation_results in Hval
      as (H1 & H2 & H3 & H4).
    repeat split; try assumption.
    intros key Hq Hp Hb. apply H4; intros Hk; rewrite fmap_None; auto.
Qed.

(** X11.  Field validation does not roll back: when query passes and params is
    rejected, the request is left with the parsed query in place (and
    params and body as they were), and stays so to the end. *)
Theorem failed_validation_keeps_earlier_fields NODE_ENV route r rs st tq tp vq e :
  runUse opts (toArray <$> use route) (enter r rs) = (st, Returned false) ->
  objectToType (object opts) <$> query route = Some tq ->
  parse opts tq (prop "query" (req st)) = Returned vq ->
  objectToType (object opts) <$> params route = Some tp ->
  parse opts tp (prop "params" (req st)) = Thrown e ->
  let final := makeHandler opts NODE_ENV route r rs in
  req final = <["query" := vq]> (req st) /\ forwarded (events final) = [e].
Proof.
  intros Hrun Hq Hvq Hp Hvp final. subst final.
  rewrite makeHandler_eq. unfold routePrologue. rewrite prologue_eq, Hrun, validation_eq.
  rewrite Hq, Hp. simpl. rewrite Hvq. simpl. rewrite prop_insert_ne by done.
  rewrite Hvp. cbn [conclude].
  match goal with |- context [finish ?s] =>
    destruct (finish_events s) as [-> _];
    assert (req (finish s) = req s) as -> by (unfold finish; destruct (originalSend s); done)
  end.
  simpl. split; [done|].
  apply runUse_spec in Hrun as [Hrun _]. apply steps_from_enter in Hrun.
  rewrite <- !app_assoc, forwarded_app. simpl.
  rewrite forwarded_not_next; [done|].
  eapply forallb_weaken; [|exact Hrun]. intros ev. unfold before_handler, not_next.
  rewrite andb_true_iff. tauto.
Qed.

End Coverage.

(** * The example application *)

(** ** The item repository *)

Lemma id_by_position (items : list ItemRepo.Item) (i : nat) (it : ItemRepo.Item) :
  ItemRepo.reachable items ->
  items !! i = Some it ->
  ItemRepo.id it = Z.of_nat i + 1.
Proof.
  intros Hr. revert i it. induction Hr as [| data items Hr IH]; intros i it; [done|].
  simpl. destruct (decide (i < length items)%nat) as [Hi | Hi].
  - rewrite lookup_app_l by done. apply IH.
  - rewrite lookup_app_r by lia.
    destruct (i - length items)%nat as [| j] eqn:E; [|done].
    intros [= <-]. simpl. f_equal. lia.
Qed.

(** X12.  The ids of the items are their positions, counted from one: the
    repository never gives the same id twice. *)
Theorem created_ids_count_up (items : list ItemRepo.Item) (i j : nat) (it it' : ItemRepo.Item) :
  ItemRepo.reachable items ->
  items !! i = Some it ->
  items !! j = Some it' ->
  ItemRepo.id it = Z.of_nat i + 1 /\
  (ItemRepo.id it = ItemRepo.id it' -> i = j).
Proof.
  intros Hr Hi Hj. pose proof (id_by_position items i it Hr Hi) as H1.
  pose proof (id_by_position items j it' Hr Hj) as H2. split; [exact H1 | lia].
Qed.

Lemma find_numbered (off k : Z) (items : list ItemRepo.Item) :
  (forall i it, items !! i = Some it -> ItemRepo.id it = off + Z.of_nat i + 1) ->
  ItemRepo.findItemById k items =
    if off + 1 <=? k then items !! Z.to_nat (k - off - 1) else None.
Proof.
  revert off. induction items as [| it rest IH]; intros off Hnum.
  - simpl. destruct (off + 1 <=? k); done.
  - unfold ItemRepo.findItemById in *. simpl.
    pose proof (Hnum 0%nat it eq_refl) as H0. simpl in H0.
    destruct (ItemRepo.id it =? k) eqn:E.
    + apply Z.eqb_eq in E. replace (k - off - 1) with 0 by lia.
      destruct (off + 1 <=? k) eqn:E'; [done|]. apply Z.leb_gt in E'. lia.
    + apply Z.eqb_neq in E. rewrite (IH (off + 1)).
      * destruct (off + 1 <=? k) eqn:E1, (off + 1 + 1 <=? k) eqn:E2;
          rewrite ?Z.leb_le, ?Z.leb_gt in *; try lia; [|done].
        replace (Z.to_nat (k - off - 1)) with (S (Z.to_nat (k - (off + 1) - 1))) by lia.
        done.
      * intros i it' Hi. rewrite (Hnum (S i) it' Hi). lia.
Qed.

Lemma find_by_position (items : list ItemRepo.Item) (k : Z) :
  ItemRepo.reachable items ->
  ItemRepo.findItemById k items =
    if (1 <=? k) && (k <=? Z.of_nat (length items))
    then items !! Z.to_nat (k - 1)
    else None.
Proof.
  intros Hr. rewrite (find_numbered 0).
  - replace (k - 0 - 1) with (k - 1) by lia. change (0 + 1) with 1.
    destruct (1 <=? k) eqn:E1; [|done]. simpl.
    destruct (k <=? Z.of_nat (length items)) eqn:E2; [done|].
    apply Z.leb_gt in E2. apply lookup_ge_None. lia.
  - intros i it Hi. rewrite (id_by_position items i it Hr Hi). lia.
Qed.

(** X13.  [findItemById] finds exactly the ids handed out so far: it returns an
    item for [1 .. items.length], the item created at that position, and
    [undefined] for every other number. *)
Theorem find_exactly_created_ids (items : list ItemRepo.Item) (k : Z) :
  ItemRepo.reachable items ->
  (forall it, ItemRepo.findItemById k items = Some it <->
              1 <= k <= Z.of_nat (length items) /\ items !! Z.to_nat (k - 1) = Some it) /\
  (ItemRepo.findItemById k items = None <-> k < 1 \/ Z.of_nat (length items) < k).
Proof.
  intros Hr. rewrite (find_by_position items k Hr).
  destruct (1 <=? k) eqn:E1, (k <=? Z.of_nat (length items)) eqn:E2; simpl;
    rewrite ?Z.leb_le, ?Z.leb_gt in *.
  - split; [intros it; split; [intros H | intros [_ H]]; auto|].
    split; [|lia]. intros H. apply lookup_ge_None in H. lia.
  - split; [intros it; split; [done | lia]|]. split; [lia | done].
  - split; [intros it; split; [done | lia]|]. split; [lia | done].
  - split; [intros it; split; [done | lia]|]. split; [lia | done].
Qed.

(** X14.  What [createItem] returns is found again under its id, with the name
    and user id given; and every item found before is still found,
    unchanged. *)
Theorem find_created_item (data : ItemRepo.ItemData) (items : list ItemRepo.Item) :
  ItemRepo.reachable items ->
  let items' := (ItemRepo.createItem data items).1 in
  let item := (ItemRepo.createItem data items).2 in
  ItemRepo.findItemById (ItemRepo.id item) items' = Some item /\
  ItemRepo.name item = ItemRepo.data_name data /\
  ItemRepo.userId item = ItemRepo.data_userId data /\
  forall k it, ItemRepo.findItemById k items = Some it ->
               ItemRepo.findItemById k items' = Some it.
Proof.
  intros Hr items' item.
  assert (ItemRepo.reachable items') as Hr' by (apply ItemRepo.reach_create, Hr).
  split; [|split; [done|split; [done|]]].
  - rewrite (find_by_position _ _ Hr'). subst items' item. simpl.
    rewrite length_app. simpl.
    replace (1 <=? Z.of_nat (length items) + 1) with true by (symmetry; apply Z.leb_le; lia).
    replace (Z.of_nat (length items) + 1 <=? Z.of_nat (length items + 1)) with true
      by (symmetry; apply Z.leb_le; lia).
    simpl. replace (Z.to_nat (Z.of_nat (length items) + 1 - 1)) with (length items) by lia.
    rewrite lookup_app_r by lia. rewrite Nat.sub_diag. done.
  - intros k it. rewrite (find_by_position _ _ Hr), (find_by_position _ _ Hr').
    subst items'. simpl. rewrite length_app. simpl.
    destruct (1 <=? k) eqn:E1; [|done]. simpl.
    destruct (k <=? Z.of_nat (length items)) eqn:E2; [|done].
    apply Z.leb_le in E1, E2.
    replace (k <=? Z.of_nat (length items + 1)) with true by (symmetry; apply Z.leb_le; lia).
    intros H. rewrite lookup_app_l; [done|]. apply lookup_lt_Some in H. done.
Qed.

(** X15.  A search by name after [createItem] is the search before, followed by
    the new item when it has that name: results come in creation order and
    the search for any other name is unchanged. *)
Theorem search_after_create (data : ItemRepo.ItemData) (items : list ItemRepo.Item)
    (name' : string) :
  ItemRepo.searchItemsByName name' (ItemRepo.createItem data items).1 =
    ItemRepo.searchItemsByName name' items ++
    (if String.eqb (ItemRepo.data_name data) name'
     then [(ItemRepo.createItem data items).2] else []).
Proof.
  unfold ItemRepo.searchItemsByName. simpl. rewrite List.filter_app. simpl.
  destruct (String.eqb (ItemRepo.data_name data) name'); done.
Qed.

(** ** The server: authorization and [GET /items/:id] *)

Section ServerFacts.

Context {T : Type}.
Variable opts : Options T.
Variable header : Request -> string -> value.

(** X16.  A route that uses [authMiddleware], on a request whose
    [Authorization] header is not ['secret']: the middleware is the only
    thing called, the request is left as it came, and Express's [next]
    receives the [AppError] ['Unauthorized'] with status 422. *)
Theorem unauthorized_request_is_rejected NODE_ENV (route : Route T) r rs :
  toArray <$> use route = Some [Server.authMiddleware header] ->
  Server.not_secret (header r "Authorization") = true ->
  let final := makeHandler opts NODE_ENV route r rs in
  events final =
    [Invoked (Middleware 0) r;
     Caught (Server.AppError "Unauthorized" None);
     Next (Server.AppError "Unauthorized" None)] /\
  req final = r /\
  Server.member "status" (Server.AppError "Unauthorized" None) = VNum 422.
Proof.
  intros Huse Hh final. subst final.
  rewrite makeHandler_eq. unfold routePrologue. rewrite prologue_eq, Huse.
  cbn [runUse]. rewrite middlewares_unfold, call_eq.
  unfold Server.authMiddleware. cbn [exec req emit enter]. rewrite Hh. cbn [exec].
  munfold. cbn [conclude]. unfold finish. simpl. done.
Qed.

(** X17.  The same route on a request whose header is ['secret']: the chain
    passes, and validation and the handler get the request with
    [user: { id: 1 }] added to it. *)
Theorem authorized_request_gets_user NODE_ENV (route : Route T) r rs :
  toArray <$> use route = Some [Server.authMiddleware header] ->
  Server.not_secret (header r "Authorization") = false ->
  exists st,
    runUse opts (toArray <$> use route) (enter r rs) = (st, Returned false) /\
    req st = <["user" := VObj [("id", VNum 1)]]> r /\
    events st = [Invoked (Middleware 0) r] /\
    forall st',
      routeValidation opts route st = (st', Returned tt) ->
      handler_request (events (makeHandler opts NODE_ENV route r rs)) = Some (req st').
Proof.
  intros Huse Hh.
  assert (runUse opts (toArray <$> use route) (enter r rs) =
            (set_req (<["user" := VObj [("id", VNum 1)]]> r)
               (emit (Invoked (Middleware 0) r) (enter r rs)), Returned false)) as Hrun.
  { rewrite Huse. cbn [runUse]. rewrite middlewares_unfold, call_eq.
    unfold Server.authMiddleware. cbn [exec req emit enter]. rewrite Hh. cbn [exec].
    munfold. simpl. done. }
  eexists. split; [exact Hrun|]. split; [done|]. split; [done|].
  intros st' Hval.
  apply (handler_entered_after_validation opts NODE_ENV route r rs _ st' Hrun Hval).
Qed.

(** X18.  The handler of [GET /items/:id] on a repository holding [items], with
    [req.params] an object: when [req.params.id] is a number among the ids
    handed out, it returns the item created at that position and touches
    nothing; otherwise (another number, or not a number) it throws,
    nothing is sent, and Express's [next] receives the [AppError]
    ['Not found']. *)
Theorem get_item_outcome NODE_ENV (route : Route T) r rs st1 items fields :
  ItemRepo.reachable items ->
  routePrologue opts NODE_ENV route (enter r rs) = (st1, Returned false) ->
  handler route = Server.getItem items ->
  prop "params" (req st1) = VObj fields ->
  let final := makeHandler opts NODE_ENV route r rs in
  let not_found :=
    events final =
      events st1 ++ [Invoked TheHandler (req st1);
                     Caught (Server.AppError "Not found" None);
                     Next (Server.AppError "Not found" None)] in
  match assoc "id" fields with
  | VNum k =>
      if (1 <=? k) && (k <=? Z.of_nat (length items))
      then exists item,
             items !! Z.to_nat (k - 1) = Some item /\ ItemRepo.id item = k /\
             call opts TheHandler (handler route) st1 =
               (emit (Invoked TheHandler (req st1)) st1, Returned (ItemRepo.toValue item))
      else not_found
  | _ => not_found
  end.
Proof.
  intros Hr Hpro Hh Hparams final not_found.
  assert (Server.findByValue (assoc "id" fields) items = None -> not_found) as Hnf.
  { intros Hnone. subst not_found final.
    rewrite makeHandler_eq, Hpro, handle_eq, Hh, call_eq.
    unfold Server.getItem. cbn [exec req emit]. rewrite Hparams.
    cbn [Server.member]. rewrite Hnone. cbn [exec]. munfold.
    cbn [conclude]. destruct (finish_events (catch (Server.AppError "Not found" None)
      (emit (Invoked TheHandler (req st1)) st1))) as [-> _].
    cbn [events catch emit set_err err]. rewrite <- !app_assoc. reflexivity. }
  destruct (assoc "id" fields) as [| | | k | |] eqn:Eid; try (apply Hnf; done).
  simpl in Hnf. rewrite (find_by_position items k Hr) in Hnf.
  destruct ((1 <=? k) && (k <=? Z.of_nat (length items))) eqn:Ek; [|apply Hnf; done].
  apply andb_true_iff in Ek as [E1 E2]. apply Z.leb_le in E1, E2.
  destruct (items !! Z.to_nat (k - 1)) as [item |] eqn:Eit.
  - exists item. split; [done|]. split.
    + rewrite (id_by_position items _ item Hr Eit). lia.
    + rewrite Hh, call_eq. unfold Server.getItem. cbn [exec req emit]. rewrite Hparams.
      cbn [Server.member]. rewrite Eid. simpl.
      rewrite (find_by_position items k Hr).
      replace ((1 <=? k) && (k <=? Z.of_nat (length items))) with true
        by (symmetry; apply andb_true_iff; split; apply Z.leb_le; lia).
      rewrite Eit. done.
  - apply lookup_ge_None in Eit. lia.
Qed.

End ServerFacts.

(** * The further properties at work *)

(** A handler that throws. *)
Lemma handler_throw_is_forwarded_witness :
  events (Mock.run (Mock.route (Throw Mock.error))) =
    [Invoked TheHandler Mock.req; Caught Mock.error; Next Mock.error].
Proof.
  pose proof (handler_throw_is_forwarded Mock.opts None (Mock.route (Throw Mock.error))
                Mock.req Mock.res (enter Mock.req Mock.res)
                (call Mock.opts TheHandler (Throw Mock.error) (enter Mock.req Mock.res)).1
                Mock.error eq_refl eq_refl) as H.
  cbv zeta in H. destruct H as [H _]. unfold Mock.run. rewrite H. evaluate.
Defined.

(** 'should not send returned data if handler calls next with error'. *)
Lemma signalled_error_suppresses_send_witness :
  events (Mock.run (Mock.checked (CallNext Mock.error (Return Mock.value')))) =
    [Invoked TheHandler Mock.req; Signalled Mock.error; Next Mock.error].
Proof.
  pose proof (signalled_error_suppresses_send Mock.opts None
                (Mock.checked (CallNext Mock.error (Return Mock.value')))
                Mock.req Mock.res _
                (call Mock.opts TheHandler (CallNext Mock.error (Return Mock.value'))
                   (set_send (checkedSend (hostSend 0) Mock.type)
                      (set_originalSend (Some (hostSend 0)) (enter Mock.req Mock.res)))).1
                Mock.value' (checked_prologue Mock.opts _ eq_refl) eq_refl eq_refl) as H.
  cbv zeta in H. unfold Mock.run. rewrite H. evaluate.
Defined.

(** A response that was sent before the routine is called. *)
Lemma sent_response_is_left_alone_witness :
  events (makeHandler Mock.opts None (Mock.route (Return Mock.value')) Mock.req
            {| send := hostSend 0; headersSent := true |}) =
    [Invoked TheHandler Mock.req; Next VUndefined].
Proof.
  pose proof (sent_response_is_left_alone Mock.opts None (Mock.route (Return Mock.value'))
                Mock.req {| send := hostSend 0; headersSent := true |}
                (enter Mock.req {| send := hostSend 0; headersSent := true |})
                (call Mock.opts TheHandler (Return Mock.value')
                   (enter Mock.req {| send := hostSend 0; headersSent := true |})).1
                Mock.value' eq_refl eq_refl eq_refl) as H.
  cbv zeta in H. rewrite H. evaluate.
Defined.

(** A route whose functions never send. *)
Lemma at_most_one_transmit_witness :
  (transmits (events (Mock.run (Mock.withMiddleware
                                  [CallNext VUndefined (Return VUndefined)]
                                  (Return Mock.value')))) <= 1)%nat.
Proof.
  unfold Mock.run. apply at_most_one_transmit.
  - simpl. repeat constructor.
  - simpl. constructor.
Defined.

(** 'should validate req.query', 'req.params', 'req.body' at once. *)
Lemma validated_fields_reach_handler_witness :
  handler_request (events (Mock.run (Mock.validating (Return VUndefined)))) =
    Some (<["body" := VStr "parsed"]>
            (<["params" := VStr "parsed"]> (<["query" := VStr "parsed"]> Mock.req))).
Proof.
  pose proof (validated_fields_reach_handler Mock.opts None
                (Mock.validating (Return VUndefined)) Mock.req Mock.res
                (enter Mock.req Mock.res)
                (routeValidation Mock.opts (Mock.validating (Return VUndefined))
                   (enter Mock.req Mock.res)).1 eq_refl eq_refl) as H.
  cbv zeta in H. destruct H as [H _]. unfold Mock.run. rewrite H. evaluate.
Defined.

(** 'should call next with error if req.params is invalid', with a query
    schema before it. *)
Lemma failed_validation_keeps_earlier_fields_witness :
  let rq : Request := <["params" := VStr "invalid"]> Mock.req in
  let final := makeHandler Mock.opts None (Mock.validating (Return VUndefined)) rq Mock.res in
  req final = <["query" := VStr "parsed"]> rq /\ forwarded (events final) = [Mock.error].
Proof.
  intros rq final.
  apply (failed_validation_keeps_earlier_fields Mock.opts None
           (Mock.validating (Return VUndefined)) rq Mock.res (enter rq Mock.res)
           Mock.type Mock.type (VStr "parsed") Mock.error);
    reflexivity.
Defined.

(** Two items created in an empty repository. *)
Lemma created_ids_count_up_witness :
  let first := {| ItemRepo.data_name := "pen"; ItemRepo.data_userId := 1 |} in
  let second := {| ItemRepo.data_name := "ink"; ItemRepo.data_userId := 1 |} in
  ItemRepo.id (ItemRepo.createItem second (ItemRepo.createItem first []).1).2 = 2.
Proof.
  intros first second.
  destruct (created_ids_count_up
              (ItemRepo.createItem second (ItemRepo.createItem first []).1).1 1 1
              (ItemRepo.createItem second (ItemRepo.createItem first []).1).2
              (ItemRepo.createItem second (ItemRepo.createItem first []).1).2) as [H _].
  - apply ItemRepo.reach_create, ItemRepo.reach_create, ItemRepo.reach_empty.
  - reflexivity.
  - reflexivity.
  - exact H.
Defined.

Lemma find_exactly_created_ids_witness :
  let first := {| ItemRepo.data_name := "pen"; ItemRepo.data_userId := 1 |} in
  ItemRepo.findItemById 2 (ItemRepo.createItem first []).1 = None.
Proof.
  intros first.
  destruct (find_exactly_created_ids (ItemRepo.createItem first []).1 2) as [_ H].
  - apply ItemRepo.reach_create, ItemRepo.reach_empty.
  - apply H. right. simpl. lia.
Defined.

Lemma find_created_item_witness :
  let first := {| ItemRepo.data_name := "pen"; ItemRepo.data_userId := 1 |} in
  let second := {| ItemRepo.data_name := "ink"; ItemRepo.data_userId := 7 |} in
  ItemRepo.findItemById 2 (ItemRepo.createItem second (ItemRepo.createItem first []).1).1 =
    Some {| ItemRepo.id := 2; ItemRepo.name := "ink"; ItemRepo.userId := 7 |}.
Proof.
  intros first second.
  destruct (find_created_item second (ItemRepo.createItem first []).1) as [H _].
  - apply ItemRepo.reach_create, ItemRepo.reach_empty.
  - exact H.
Defined.

(** The example's routes with the suite's collaborators, [req.header]
    read from a property of the request. *)
Lemma unauthorized_request_is_rejected_witness :
  let header := fun (r : Request) (_ : string) => prop "authorization" r in
  let route := Mock.withMiddleware [Server.authMiddleware header] (Return VUndefined) in
  events (Mock.run route) =
    [Invoked (Middleware 0) Mock.req;
     Caught (Server.AppError "Unauthorized" None);
     Next (Server.AppError "Unauthorized" None)].
Proof.
  intros header route.
  destruct (unauthorized_request_is_rejected Mock.opts header None route Mock.req Mock.res
              eq_refl eq_refl) as [H _].
  exact H.
Defined.

Lemma authorized_request_gets_user_witness :
  let header := fun (r : Request) (_ : string) => prop "authorization" r in
  let route := Mock.withMiddleware [Server.authMiddleware header] (Return VUndefined) in
  let rq : Request := <["authorization" := VStr "secret"]> Mock.req in
  handler_request (events (makeHandler Mock.opts None route rq Mock.res)) =
    Some (<["user" := VObj [("id", VNum 1)]]> rq).
Proof.
  intros header route rq.
  destruct (authorized_request_gets_user Mock.opts header None route rq Mock.res
              eq_refl eq_refl) as (st & H1 & H2 & H3 & H4).
  rewrite (H4 st eq_refl), H2. reflexivity.
Defined.

Lemma get_item_outcome_witness :
  let first := {| ItemRepo.data_name := "pen"; ItemRepo.data_userId := 1 |} in
  let items := (ItemRepo.createItem first []).1 in
  let rq : Request := <["params" := VObj [("id", VNum 5)]]> Mock.req in
  events (makeHandler Mock.opts None (Mock.route (Server.getItem items)) rq Mock.res) =
    [Invoked TheHandler rq;
     Caught (Server.AppError "Not found" None);
     Next (Server.AppError "Not found" None)].
Proof.
  intros first items rq.
  pose proof (get_item_outcome Mock.opts None (Mock.route (Server.getItem items)) rq
                Mock.res (enter rq Mock.res) items [("id", VNum 5)]) as H.
  cbv zeta in H. apply H.
  - apply ItemRepo.reach_create, ItemRepo.reach_empty.
  - reflexivity.
  - reflexivity.
  - reflexivity.
Defined.

(** A handler that signals an error and then clears it with [next()]. *)
Lemma falsy_error_lets_send_witness :
  let handler := CallNext Mock.error (CallNext VUndefined (Return Mock.value')) in
  forwarded (events (Mock.run (Mock.route handler))) = [VUndefined].
Proof.
  intros handler.
  pose proof (falsy_error_lets_send Mock.opts None (Mock.route handler) Mock.req Mock.res
                (enter Mock.req Mock.res)
                (call Mock.opts TheHandler handler (enter Mock.req Mock.res)).1
                Mock.value' eq_refl eq_refl eq_refl eq_refl) as H.
  cbv zeta in H.
  destruct (resSend Mock.opts Mock.value'
              (call Mock.opts TheHandler handler (enter Mock.req Mock.res)).1)
    as [st3 [[] | e]] eqn:E.
  - destruct H as [_ H]. unfold Mock.run. rewrite H. evaluate.
  - vm_compute in E. discriminate E.
Defined.
